(** * StateBot: a shallow embedding of the fact-driven state store

    The development follows the TypeScript sources:

    - [types/statebot.store.ts]: the data model ([StateBotConfig],
      [StateBotState], [LLMStateResponse]);
    - [services/statebot/*-integration.service.ts]: the three LLM clients,
      which differ only in the strings of their error messages and share
      one retry loop;
    - [stores/statebot.store.ts]: the [StateBotStore] class, built on a
      Svelte [writable] store.

    Conventions of the model.

    - JavaScript strings are [string]; the default comparison of
      [Array.prototype.sort] on strings is the code-unit lexicographic order,
      here [String.le].
    - Millisecond quantities, [Date] values (their [getTime()]) and counts are
      [Z]; confidences and the determination threshold are rationals [Q].
    - An optional field that may be [undefined] is an [option].
    - JavaScript objects have identity.  The record held by the store and its
      two arrays live in a heap and are named by references, so that what
      [getState()] hands out can be told apart from a copy.
    - [new Date()] reads the field [now] of the world; timers live in the
      world's timer table and fire when [advance] moves the clock past their
      due time.  The runtime keeps the delay of a timeout in a signed 32-bit
      integer ([timerDelay]).
    - The network is an oracle [net], the outcome of the i-th [fetch] of a
      run, with an oracle [latency], the time the i-th call of the service
      waits for its answers.  While a call of the service is awaited the
      clock moves, by that time and by the backoff the client sleeps.
    - A determination cycle is one step of [perform] and [run], from the
      reading of the facts to the update of the store.  What is stated of
      one cycle is stated of a cycle during which nothing else is done to
      the instance; the runs in which the instance is used while a call of
      the service is awaited are those of [happenAll], where a cycle goes on
      at any later moment, on the record it then finds.
    - A subscription of the Svelte store has an identity of its own, apart
      from its callback: one callback can be subscribed several times. *)

From Stdlib Require Import QArith DecimalString.
From stdpp Require Import base option list sorting strings gmap.

Local Open Scope string_scope.
Local Open Scope list_scope.
Local Open Scope Z_scope.

(** ** Data model: types/statebot.store.ts *)

(** [LLMStateResponse<TStateTypes>] *)
Record LLMStateResponse := {
  r_state : string;
  r_confidence : Q;
  r_reasoning : option string
}.

(** ** The LLM clients: services/statebot/*-integration.service.ts *)

Module Client.

(** The three service classes. *)
Inductive Provider := Claude | Gemini | ChatGPT.

(** The name used in "X API error" and "Failed to determine state with X API". *)
Definition apiName (p : Provider) : string :=
  match p with Claude => "Claude" | Gemini => "Gemini" | ChatGPT => "OpenAI" end.

(** The name used in "Failed to parse X response". *)
Definition parseName (p : Provider) : string :=
  match p with Claude => "Claude" | Gemini => "Gemini" | ChatGPT => "ChatGPT" end.

(** What the body of a response turns out to be. *)
Inductive Body :=
| NotJson (msg : string)          (* [response.json()] rejects with [msg] *)
| Unparsable                      (* [parseResponse] throws *)
| Parsed (r : LLMStateResponse).  (* [parseResponse] returns [r] *)

(** The outcome of one [fetch]. *)
Inductive Attempt :=
| NetworkError (msg : string)                          (* [fetch] rejects *)
| Http (status : N) (statusText : string) (body : Body).

(** [response.ok]: the status is in the range 200-299. *)
Definition ok (status : N) : bool :=
  ((200 <=? status) && (status <=? 299))%N.

Definition showN (n : N) : string := NilZero.string_of_uint (N.to_uint n).

(** The body of the [try] block: either the value it returns or the
    message of the error it throws. *)
Definition tryOnce (p : Provider) (a : Attempt) : string + LLMStateResponse :=
  match a with
  | NetworkError msg => inl msg
  | Http status statusText body =>
      if negb (ok status) then
        inl (apiName p +:+ " API error: " +:+ showN status +:+ " " +:+ statusText)
      else
        match body with
        | NotJson msg => inl msg
        | Unparsable => inl ("Failed to parse " +:+ parseName p +:+ " response")
        | Parsed r => inr r
        end
  end.

(** A run of [determineState]: what it resolves or rejects with, how many
    times it called [fetch], and the delays it slept, in order. *)
Record Run := {
  result : string + LLMStateResponse;
  attempts : nat;
  delays : list Z
}.

(** The [while (attempts < this.retryCount)] loop.  [remaining] is
    [retryCount - attempts], so the loop guard is [remaining > 0] and the
    inner test [attempts < this.retryCount] after [attempts++] is
    [remaining - 1 > 0].  [base] is the index of the first [fetch] of this
    call in the oracle. *)
Fixpoint retryLoop (p : Provider) (net : nat → Attempt) (base : nat)
    (remaining : nat) (attempts : nat) (lastError : option string)
    (delays : list Z) : Run :=
  match remaining with
  | O =>
      {| result := inl (default ("Failed to determine state with " +:+ apiName p +:+ " API")
                                lastError);
         attempts := attempts; delays := delays |}
  | S remaining' =>
      match tryOnce p (net (base + attempts)%nat) with
      | inr r => {| result := inr r; attempts := S attempts; delays := delays |}
      | inl e =>
          let attempts' := S attempts in
          let delays' :=
            match remaining' with
            | O => delays
            | S _ => delays ++ [2 ^ Z.of_nat attempts' * 500]
            end in
          retryLoop p net base remaining' attempts' (Some e) delays'
      end
  end.

(** [determineState(states, facts)]; the prompt only reaches the network,
    whose answers are the oracle. *)
Definition determineState (p : Provider) (retryCount : Z) (net : nat → Attempt)
    (base : nat) : Run :=
  retryLoop p net base (Z.to_nat retryCount) 0 None [].

(** The delays slept before attempts 2, 3, ..., k+1. *)
Definition backoff (k : nat) : list Z :=
  (λ a, 2 ^ Z.of_nat a * 500) <$> seq 1 k.

Definition fails (p : Provider) (a : Attempt) : Prop :=
  ∃ e, tryOnce p a = inl e.

Global Instance fails_dec (p : Provider) (a : Attempt) : Decision (fails p a).
Proof.
  unfold fails. destruct (tryOnce p a) as [e|r].
  - left. by exists e.
  - right. by intros [e He].
Defined.

End Client.

(** ** Data model, continued *)

(** [StateBotConfig<TStateTypes>]; [states] is the [Record] in its insertion
    order. *)
Record StateBotConfig := {
  provider : string;
  apiKey : string;
  states : list (string * list string);
  cacheExpiry : option Z;
  debounceTime : option Z;
  retryCount : option Z;
  determinationThreshold : option Q
}.

(** [Fact | string], the argument of [addFact] and [removeFact]. *)
Inductive FactArg :=
| Str (s : string)
| FactObj (content : string) (source : option string) (timestamp : option Z).

(** [typeof fact === 'string' ? fact : fact.content] *)
Definition factContent (fact : FactArg) : string :=
  match fact with
  | Str s => s
  | FactObj content _ _ => content
  end.

(** A reference to an object of the JavaScript heap. *)
Definition ref := nat.

(** An element of [transitions].  A transition object and its [facts] copy
    are built once, by [updateStateStore], and are kept by value. *)
Record Transition := {
  tr_from : option string;
  tr_to : string;
  tr_timestamp : Z;
  tr_facts : list string
}.

(** [StateBotState<TStateTypes>] as an object: its two arrays are
    references. *)
Record StateBotState := {
  currentState : option string;
  previousState : option string;
  facts : ref;
  confidence : Q;
  lastUpdated : Z;
  transitions : ref;
  error : option string
}.

(** The heap: the state objects, the arrays of facts and the arrays of
    transitions.  Allocation appends, so a reference is an index. *)
Record Heap := {
  objs : list StateBotState;
  factArrays : list (list string);
  transArrays : list (list Transition)
}.

Global Instance StateBotState_inhabited : Inhabited StateBotState :=
  populate {| currentState := None; previousState := None; facts := O;
              confidence := 0%Q; lastUpdated := 0; transitions := O;
              error := None |}.

Definition allocObj (s : StateBotState) (h : Heap) : ref * Heap :=
  (length (objs h),
   {| objs := objs h ++ [s]; factArrays := factArrays h;
      transArrays := transArrays h |}).

Definition allocFacts (l : list string) (h : Heap) : ref * Heap :=
  (length (factArrays h),
   {| objs := objs h; factArrays := factArrays h ++ [l];
      transArrays := transArrays h |}).

Definition allocTrans (l : list Transition) (h : Heap) : ref * Heap :=
  (length (transArrays h),
   {| objs := objs h; factArrays := factArrays h;
      transArrays := transArrays h ++ [l] |}).

Definition readObj (h : Heap) (r : ref) : StateBotState := objs h !!! r.
Definition readFacts (h : Heap) (a : ref) : list string := factArrays h !!! a.
Definition readTrans (h : Heap) (a : ref) : list Transition := transArrays h !!! a.

(** What a reader of an object sees, arrays included: the state by value. *)
Record Snapshot := {
  s_currentState : option string;
  s_previousState : option string;
  s_facts : list string;
  s_confidence : Q;
  s_lastUpdated : Z;
  s_transitions : list Transition;
  s_error : option string
}.

Definition view (h : Heap) (o : StateBotState) : Snapshot :=
  {| s_currentState := currentState o;
     s_previousState := previousState o;
     s_facts := readFacts h (facts o);
     s_confidence := confidence o;
     s_lastUpdated := lastUpdated o;
     s_transitions := readTrans h (transitions o);
     s_error := error o |}.

Definition snapshot (h : Heap) (r : ref) : Snapshot := view h (readObj h r).

(** The value of a cache entry. *)
Record CacheEntry := {
  c_state : string;
  c_confidence : Q;
  c_timestamp : Z
}.

(** [LLMService<TStateTypes>]: one of the three clients, built by the
    constructor with the API key and the retry count, or a service injected
    with [setLLMService], whose answer may depend on the number of calls made
    so far and on the facts. *)
Inductive LLMService :=
| Provided (p : Client.Provider) (key : string) (retries : Z)
| Custom (f : nat → list string → string + LLMStateResponse).

(** ** The world: one [StateBotStore] instance and its environment *)
Record World := {
  (* fields of the instance *)
  config : StateBotConfig;
  value : ref;                      (* the value held by the writable *)
  subscribers : list (nat * nat);   (* the subscriptions of the writable, in
                                       the order they were made: the
                                       subscription and its callback *)
  nextSubscription : nat;           (* the subscriptions made so far *)
  llmService : LLMService;
  updateTimer : option positive;
  cache : gmap string CacheEntry;
  (* the environment *)
  heap : Heap;
  now : Z;                          (* the clock read by [new Date()] *)
  timers : list (positive * Z);     (* pending timeouts: id and due time *)
  nextTimer : positive;
  net : nat → Client.Attempt;
  latency : nat → Z;                (* the time the i-th call of the service
                                       waits for its answers, the backoff it
                                       sleeps apart *)
  (* what an observer of a run records *)
  fetches : nat;                    (* calls of [fetch] *)
  llmCalls : nat;                   (* calls of [llmService.determineState] *)
  timerRuns : nat;                  (* runs of the debounce callback *)
  delivered : list (nat * Snapshot) (* callback and the state it was given *)
}.

Definition set_value (x : ref) (w : World) : World :=
  {| config := config w; value := x; subscribers := subscribers w;
     nextSubscription := nextSubscription w; llmService := llmService w;
     updateTimer := updateTimer w; cache := cache w; heap := heap w;
     now := now w; timers := timers w; nextTimer := nextTimer w;
     net := net w; latency := latency w; fetches := fetches w;
     llmCalls := llmCalls w; timerRuns := timerRuns w;
     delivered := delivered w |}.

Definition set_subscribers (x : list (nat * nat)) (w : World) : World :=
  {| config := config w; value := value w; subscribers := x;
     nextSubscription := nextSubscription w; llmService := llmService w;
     updateTimer := updateTimer w; cache := cache w; heap := heap w;
     now := now w; timers := timers w; nextTimer := nextTimer w;
     net := net w; latency := latency w; fetches := fetches w;
     llmCalls := llmCalls w; timerRuns := timerRuns w;
     delivered := delivered w |}.

Definition set_nextSubscription (x : nat) (w : World) : World :=
  {| config := config w; value := value w; subscribers := subscribers w;
     nextSubscription := x; llmService := llmService w;
     updateTimer := updateTimer w; cache := cache w; heap := heap w;
     now := now w; timers := timers w; nextTimer := nextTimer w;
     net := net w; latency := latency w; fetches := fetches w;
     llmCalls := llmCalls w; timerRuns := timerRuns w;
     delivered := delivered w |}.

Definition set_llmService (x : LLMService) (w : World) : World :=
  {| config := config w; value := value w; subscribers := subscribers w;
     nextSubscription := nextSubscription w; llmService := x;
     updateTimer := updateTimer w; cache := cache w; heap := heap w;
     now := now w; timers := timers w; nextTimer := nextTimer w;
     net := net w; latency := latency w; fetches := fetches w;
     llmCalls := llmCalls w; timerRuns := timerRuns w;
     delivered := delivered w |}.

Definition set_updateTimer (x : option positive) (w : World) : World :=
  {| config := config w; value := value w; subscribers := subscribers w;
     nextSubscription := nextSubscription w; llmService := llmService w;
     updateTimer := x; cache := cache w; heap := heap w; now := now w;
     timers := timers w; nextTimer := nextTimer w; net := net w;
     latency := latency w; fetches := fetches w; llmCalls := llmCalls w;
     timerRuns := timerRuns w; delivered := delivered w |}.

Definition set_cache (x : gmap string CacheEntry) (w : World) : World :=
  {| config := config w; value := value w; subscribers := subscribers w;
     nextSubscription := nextSubscription w; llmService := llmService w;
     updateTimer := updateTimer w; cache := x; heap := heap w; now := now w;
     timers := timers w; nextTimer := nextTimer w; net := net w;
     latency := latency w; fetches := fetches w; llmCalls := llmCalls w;
     timerRuns := timerRuns w; delivered := delivered w |}.

Definition set_heap (x : Heap) (w : World) : World :=
  {| config := config w; value := value w; subscribers := subscribers w;
     nextSubscription := nextSubscription w; llmService := llmService w;
     updateTimer := updateTimer w; cache := cache w; heap := x; now := now w;
     timers := timers w; nextTimer := nextTimer w; net := net w;
     latency := latency w; fetches := fetches w; llmCalls := llmCalls w;
     timerRuns := timerRuns w; delivered := delivered w |}.

Definition set_now (x : Z) (w : World) : World :=
  {| config := config w; value := value w; subscribers := subscribers w;
     nextSubscription := nextSubscription w; llmService := llmService w;
     updateTimer := updateTimer w; cache := cache w; heap := heap w;
     now := x; timers := timers w; nextTimer := nextTimer w; net := net w;
     latency := latency w; fetches := fetches w; llmCalls := llmCalls w;
     timerRuns := timerRuns w; delivered := delivered w |}.

Definition set_timers (x : list (positive * Z)) (w : World) : World :=
  {| config := config w; value := value w; subscribers := subscribers w;
     nextSubscription := nextSubscription w; llmService := llmService w;
     updateTimer := updateTimer w; cache := cache w; heap := heap w;
     now := now w; timers := x; nextTimer := nextTimer w; net := net w;
     latency := latency w; fetches := fetches w; llmCalls := llmCalls w;
     timerRuns := timerRuns w; delivered := delivered w |}.

Definition set_nextTimer (x : positive) (w : World) : World :=
  {| config := config w; value := value w; subscribers := subscribers w;
     nextSubscription := nextSubscription w; llmService := llmService w;
     updateTimer := updateTimer w; cache := cache w; heap := heap w;
     now := now w; timers := timers w; nextTimer := x; net := net w;
     latency := latency w; fetches := fetches w; llmCalls := llmCalls w;
     timerRuns := timerRuns w; delivered := delivered w |}.

Definition set_latency (x : nat → Z) (w : World) : World :=
  {| config := config w; value := value w; subscribers := subscribers w;
     nextSubscription := nextSubscription w; llmService := llmService w;
     updateTimer := updateTimer w; cache := cache w; heap := heap w;
     now := now w; timers := timers w; nextTimer := nextTimer w;
     net := net w; latency := x; fetches := fetches w;
     llmCalls := llmCalls w; timerRuns := timerRuns w;
     delivered := delivered w |}.

Definition set_fetches (x : nat) (w : World) : World :=
  {| config := config w; value := value w; subscribers := subscribers w;
     nextSubscription := nextSubscription w; llmService := llmService w;
     updateTimer := updateTimer w; cache := cache w; heap := heap w;
     now := now w; timers := timers w; nextTimer := nextTimer w;
     net := net w; latency := latency w; fetches := x;
     llmCalls := llmCalls w; timerRuns := timerRuns w;
     delivered := delivered w |}.

Definition set_llmCalls (x : nat) (w : World) : World :=
  {| config := config w; value := value w; subscribers := subscribers w;
     nextSubscription := nextSubscription w; llmService := llmService w;
     updateTimer := updateTimer w; cache := cache w; heap := heap w;
     now := now w; timers := timers w; nextTimer := nextTimer w;
     net := net w; latency := latency w; fetches := fetches w; llmCalls := x;
     timerRuns := timerRuns w; delivered := delivered w |}.

Definition set_timerRuns (x : nat) (w : World) : World :=
  {| config := config w; value := value w; subscribers := subscribers w;
     nextSubscription := nextSubscription w; llmService := llmService w;
     updateTimer := updateTimer w; cache := cache w; heap := heap w;
     now := now w; timers := timers w; nextTimer := nextTimer w;
     net := net w; latency := latency w; fetches := fetches w;
     llmCalls := llmCalls w; timerRuns := x; delivered := delivered w |}.

Definition set_delivered (x : list (nat * Snapshot)) (w : World) : World :=
  {| config := config w; value := value w; subscribers := subscribers w;
     nextSubscription := nextSubscription w; llmService := llmService w;
     updateTimer := updateTimer w; cache := cache w; heap := heap w;
     now := now w; timers := timers w; nextTimer := nextTimer w;
     net := net w; latency := latency w; fetches := fetches w;
     llmCalls := llmCalls w; timerRuns := timerRuns w; delivered := x |}.


(** ** The Svelte store: [writable], [get] (svelte/store) *)

(** The callbacks of the subscriptions run, in subscription order, with the
    current value.  A callback is an observer: it reads what it is given. *)
Definition notify (w : World) : World :=
  set_delivered
    (delivered w ++
       ((λ sub, (sub.2, snapshot (heap w) (value w))) <$> subscribers w))
    w.

(** [store.set(new_value)].  Every value this program sets is an object, for
    which [safe_not_equal] holds, so the value is replaced and the
    subscribers run. *)
Definition store_set (new_value : ref) (w : World) : World :=
  notify (set_value new_value w).

(** [store.update(fn)] is [set(fn(value))].  [fn] evaluates an object
    literal: it is given the current object and the heap, may allocate the
    arrays of the literal, and yields the fields of the new object, which is
    then allocated. *)
Definition store_update (fn : StateBotState → Heap → StateBotState * Heap)
    (w : World) : World :=
  let built := fn (readObj (heap w) (value w)) (heap w) in
  let new_value := allocObj built.1 built.2 in
  store_set new_value.1 (set_heap new_value.2 w).

(** [store.subscribe(run)]: a new subscription of the callback [run] is
    added to the set of the writable, after those it holds, and the callback
    is run at once with the current value.  One callback can be subscribed
    several times: each call makes a subscription of its own, here
    [nextSubscription w]. *)
Definition subscribe (run : nat) (w : World) : World :=
  set_delivered
    (delivered w ++ [(run, snapshot (heap w) (value w))])
    (set_nextSubscription (S (nextSubscription w))
       (set_subscribers (subscribers w ++ [(nextSubscription w, run)]) w)).

(** The function returned by the call of [subscribe] that made the
    subscription [sub]: it deletes that subscription from the set, and no
    other one. *)
Definition unsubscribe (sub : nat) (w : World) : World :=
  set_subscribers (filter (λ s, s.1 ≠ sub) (subscribers w)) w.

(** ** Timers: [setTimeout], [clearTimeout] *)

(** The delay the runtime gives a timeout.  It keeps the delay in a signed
    32-bit integer: Node.js, whose rule this is, sets a delay above
    2147483647 or below 1 to 1.  (A browser converts the delay to 32 bits
    instead; on the range 1 .. 2147483647 the two agree.) *)
Definition timerDelay (delay : Z) : Z :=
  if decide (1 ≤ delay ≤ 2147483647) then delay else 1.

Definition setTimeout (delay : Z) (w : World) : positive * World :=
  let id := nextTimer w in
  (id, set_nextTimer (Pos.succ id)
         (set_timers (timers w ++ [(id, now w + timerDelay delay)]) w)).

Definition clearTimeout (id : positive) (w : World) : World :=
  set_timers (filter (λ t, t.1 ≠ id) (timers w)) w.

(** ** [StateBotStore]: stores/statebot.store.ts *)

(** [a || d] on an optional number: [undefined] and [0] are falsy. *)
Definition orZ (a : option Z) (d : Z) : Z :=
  match a with
  | Some v => if decide (v = 0) then d else v
  | None => d
  end.

Definition orQ (a : option Q) (d : Q) : Q :=
  match a with
  | Some v => if Qeq_bool v 0 then d else v
  | None => d
  end.

(** The object literal assigned to [this.config] by the constructor. *)
Definition defaultedConfig (config : StateBotConfig) : StateBotConfig :=
  {| provider := provider config;
     apiKey := apiKey config;
     states := states config;
     cacheExpiry := Some (orZ (cacheExpiry config) (5 * 60 * 1000));
     debounceTime := Some (orZ (debounceTime config) 500);
     retryCount := Some (orZ (retryCount config) 3);
     determinationThreshold :=
       Some (orQ (determinationThreshold config) (7 # 10)) |}.

(** [createLLMService()]; the service constructors default an [undefined]
    retry count to 3. *)
Definition createLLMService (config : StateBotConfig) : string + LLMService :=
  let retries := default 3 (retryCount config) in
  if decide (provider config = "claude") then
    inr (Provided Client.Claude (apiKey config) retries)
  else if decide (provider config = "gemini") then
    inr (Provided Client.Gemini (apiKey config) retries)
  else if decide (provider config = "chatgpt") then
    inr (Provided Client.ChatGPT (apiKey config) retries)
  else inl ("Unsupported LLM provider: " +:+ provider config).

(** The initial value of the writable: one object and its two empty
    arrays. *)
Definition initialHeap (t : Z) : Heap :=
  {| objs := [ {| currentState := None; previousState := None; facts := O;
                  confidence := 0%Q; lastUpdated := t; transitions := O;
                  error := None |} ];
     factArrays := [ [] ];
     transArrays := [ [] ] |}.

(** [new StateBotStore(config)] at time [t], on the network [n] with the
    latencies [l]. *)
Definition constructor (config : StateBotConfig) (t : Z)
    (n : nat → Client.Attempt) (l : nat → Z) : string + World :=
  let config' := defaultedConfig config in
  match createLLMService config' with
  | inl e => inl e
  | inr service =>
      inr {| config := config'; value := O; subscribers := [];
             nextSubscription := O;
             llmService := service; updateTimer := None; cache := ∅;
             heap := initialHeap t; now := t; timers := []; nextTimer := 1%positive;
             net := n; latency := l; fetches := O; llmCalls := O;
             timerRuns := O; delivered := [] |}
  end.

Definition setLLMService (service : LLMService) (w : World) : World :=
  set_llmService service w.

(** [getState()] is [get(this.store)]: the value held by the store. *)
Definition getState (w : World) : ref := value w.

(** [{ ...state, facts: l }] *)
Definition withFacts (l : list string) (state : StateBotState) (h : Heap)
    : StateBotState * Heap :=
  let '(a, h') := allocFacts l h in
  ({| currentState := currentState state;
      previousState := previousState state;
      facts := a;
      confidence := confidence state;
      lastUpdated := lastUpdated state;
      transitions := transitions state;
      error := error state |}, h').

(** [{ ...state, error: msg }] *)
Definition withError (msg : string) (state : StateBotState) (h : Heap)
    : StateBotState * Heap :=
  ({| currentState := currentState state;
      previousState := previousState state;
      facts := facts state;
      confidence := confidence state;
      lastUpdated := lastUpdated state;
      transitions := transitions state;
      error := Some msg |}, h).

(** [generateCacheKey(facts)]: [facts.slice().sort().join('|')].  The sort is
    the default one, on strings; a merge sort stands for it, the order being
    total and antisymmetric. *)
Definition generateCacheKey (facts : list string) : string :=
  String.concat "|" (merge_sort String.le facts).

(** [isCacheValid(timestamp)]; a comparison with [undefined] is false. *)
Definition isCacheValid (timestamp : Z) (w : World) : bool :=
  let age := now w - timestamp in
  match cacheExpiry (config w) with
  | Some expiry => bool_decide (age < expiry)
  | None => false
  end.

(** [updateStateStore(newState, confidence)] *)
Definition updateStateStore (newState : string) (conf : Q) (w : World) : World :=
  store_update (λ state h,
    let stateChanged := bool_decide (currentState state ≠ Some newState) in
    let '(trans, h') :=
      if stateChanged then
        allocTrans (readTrans h (transitions state) ++
                      [ {| tr_from := currentState state;
                           tr_to := newState;
                           tr_timestamp := now w;
                           tr_facts := readFacts h (facts state) |} ]) h
      else (transitions state, h) in
    ({| currentState := Some newState;
        previousState :=
          if stateChanged then currentState state else previousState state;
        facts := facts state;
        confidence := conf;
        lastUpdated := now w;
        transitions := trans;
        error := None |}, h')) w.

(** The time slept in all. *)
Definition total (l : list Z) : Z := foldr Z.add 0 l.

(** The time a call of the service takes: the backoff it sleeps, each
    delay it asks of [setTimeout] as the runtime gives it, and what it waits
    for its answers. *)
Definition callTime (delays : list Z) (w : World) : Z :=
  total (timerDelay <$> delays) + Z.max 0 (latency w (llmCalls w)).

(** [await this.llmService.determineState(this.config.states, facts)]: when
    the call returns, the clock has moved by the time the call took. *)
Definition callService (fs : list string) (w : World)
    : (string + LLMStateResponse) * World :=
  match llmService w with
  | Provided p _ retries =>
      let run := Client.determineState p retries (net w) (fetches w) in
      (Client.result run,
       set_now (now w + callTime (Client.delays run) w)
         (set_fetches (fetches w + Client.attempts run)%nat
            (set_llmCalls (S (llmCalls w)) w)))
  | Custom f =>
      (f (llmCalls w) fs,
       set_now (now w + callTime [] w) (set_llmCalls (S (llmCalls w)) w))
  end.

(** [updateState()]: the value the promise resolves with ([inr], possibly
    [null]) or the message of the error it rejects with ([inl]). *)
Definition updateState (w : World) : (string + option string) * World :=
  let currentState_ := readObj (heap w) (getState w) in
  let fs := readFacts (heap w) (facts currentState_) in
  if decide (length fs = O) then (inr (currentState currentState_), w)
  else
    let cacheKey := generateCacheKey fs in
    let miss :=
      match callService fs w with
      | (inr response, w1) =>
          let w2 :=
            set_cache (<[cacheKey := {| c_state := r_state response;
                                        c_confidence := r_confidence response;
                                        c_timestamp := now w1 |}]> (cache w1)) w1 in
          (inr (Some (r_state response)),
           updateStateStore (r_state response) (r_confidence response) w2)
      | (inl msg, w1) => (inl msg, store_update (withError msg) w1)
      end in
    match cache w !! cacheKey with
    | Some cacheEntry =>
        if isCacheValid (c_timestamp cacheEntry) w then
          (inr (Some (c_state cacheEntry)),
           updateStateStore (c_state cacheEntry) (c_confidence cacheEntry) w)
        else miss
    | None => miss
    end.

(** [scheduleStateUpdate()]; an [undefined] delay is no number, which
    [setTimeout] takes as it takes 0. *)
Definition scheduleStateUpdate (w : World) : World :=
  let w1 :=
    match updateTimer w with
    | Some id => clearTimeout id w
    | None => w
    end in
  let '(id, w2) := setTimeout (default 0 (debounceTime (config w1))) w1 in
  set_updateTimer (Some id) w2.

(** The callback armed by [scheduleStateUpdate]. *)
Definition timerCallback (w : World) : World :=
  let w' :=
    match updateState w with
    | (inr _, w1) => w1
    | (inl msg, w1) => store_update (withError msg) w1
    end in
  set_timerRuns (S (timerRuns w')) w'.

Definition addFact (fact : FactArg) (w : World) : World :=
  let c := factContent fact in
  scheduleStateUpdate
    (store_update (λ state h, withFacts (readFacts h (facts state) ++ [c]) state h) w).

Definition addFacts (fs : list FactArg) (w : World) : World :=
  let factContents := factContent <$> fs in
  scheduleStateUpdate
    (store_update
       (λ state h, withFacts (readFacts h (facts state) ++ factContents) state h) w).

Definition removeFact (fact : FactArg) (w : World) : World :=
  let c := factContent fact in
  scheduleStateUpdate
    (store_update
       (λ state h, withFacts (filter (λ f, f ≠ c) (readFacts h (facts state))) state h)
       w).

(** [clearFacts()]: two updates of the store, one after the other. *)
Definition clearFacts (w : World) : World :=
  let w1 := store_update (withFacts []) w in
  store_update (λ state h,
    ({| currentState := None;
        previousState := previousState state;
        facts := facts state;
        confidence := 0%Q;
        lastUpdated := lastUpdated state;
        transitions := transitions state;
        error := error state |}, h)) w1.

(** [determineState()] of the store. *)
Definition determineState (w : World) : (string + option string) * World :=
  let w1 :=
    match updateTimer w with
    | Some id => set_updateTimer None (clearTimeout id w)
    | None => w
    end in
  updateState w1.

(** [reset()] *)
Definition reset (w : World) : World :=
  let '(a, h1) := allocFacts [] (heap w) in
  let '(t, h2) := allocTrans [] h1 in
  let '(r, h3) :=
    allocObj {| currentState := None; previousState := None; facts := a;
                confidence := 0%Q; lastUpdated := now w; transitions := t;
                error := None |} h2 in
  set_cache ∅ (store_set r (set_heap h3 w)).

(** ** The event loop *)

(** A pending timeout comes due: it leaves the table and the debounce
    callback runs.  [this.updateTimer] keeps the stale id, as in the
    source. *)
Definition fire (t : positive * Z) (w : World) : World :=
  if bool_decide (t ∈ timers w) then
    timerCallback (set_now (Z.max (now w) t.2) (clearTimeout t.1 w))
  else w.

(** Time passes until [t]: the timeouts due by then fire, in the order of
    the table (all are armed with the same delay, so this is the order of
    their due times), and the clock reaches [t]. *)
Definition advance (t : Z) (w : World) : World :=
  let due := filter (λ x, x.2 ≤ t) (timers w) in
  let w' := foldl (λ v x, fire x v) w due in
  set_now (Z.max t (now w')) w'.

(** The fact mutations that go through the debounce path. *)
Inductive FactMutation :=
| AddFact (fact : FactArg)
| AddFacts (fs : list FactArg)
| RemoveFact (fact : FactArg).

Definition applyMutation (m : FactMutation) (w : World) : World :=
  match m with
  | AddFact fact => addFact fact w
  | AddFacts fs => addFacts fs w
  | RemoveFact fact => removeFact fact w
  end.

(** A burst: each mutation with the time at which the caller performs it. *)
Fixpoint runBurst (evs : list (Z * FactMutation)) (w : World) : World :=
  match evs with
  | [] => w
  | (t, m) :: evs' => runBurst evs' (applyMutation m (advance t w))
  end.

(** Each event of the burst comes less than [d] after the previous one,
    the first of them after [t0]. *)
Fixpoint spaced (d : Z) (t0 : Z) (evs : list (Z * FactMutation)) : Prop :=
  match evs with
  | [] => True
  | (t, _) :: evs' => t0 ≤ t ∧ t - t0 < d ∧ spaced d t evs'
  end.

Global Instance spaced_dec (d t0 : Z) (evs : list (Z * FactMutation)) :
  Decision (spaced d t0 evs).
Proof.
  revert t0. induction evs as [|[t m] evs IH]; intros t0; simpl; apply _.
Defined.

(** The pending timeouts are the one the instance remembers. *)
Definition timersOwned (w : World) : Prop :=
  Forall (λ t, updateTimer w = Some t.1) (timers w).

Global Instance timersOwned_dec (w : World) : Decision (timersOwned w).
Proof. unfold timersOwned. apply _. Defined.

(** ** A caller holding the object returned by [getState()] *)

(** Assignments and array operations a caller can perform on the object it
    was given and on the arrays it reaches from it. *)
Inductive Mutation :=
| AssignCurrentState (v : option string)   (* [s.currentState = v] *)
| AssignConfidence (q : Q)                 (* [s.confidence = q] *)
| PushFact (f : string)                    (* [s.facts.push(f)] *)
| TruncateFacts                            (* [s.facts.length = 0] *)
| TruncateTransitions.                     (* [s.transitions.length = 0] *)

Definition mutate (r : ref) (m : Mutation) (h : Heap) : Heap :=
  let o := readObj h r in
  match m with
  | AssignCurrentState v =>
      {| objs := <[r := {| currentState := v;
                           previousState := previousState o;
                           facts := facts o;
                           confidence := confidence o;
                           lastUpdated := lastUpdated o;
                           transitions := transitions o;
                           error := error o |}]> (objs h);
         factArrays := factArrays h; transArrays := transArrays h |}
  | AssignConfidence q =>
      {| objs := <[r := {| currentState := currentState o;
                           previousState := previousState o;
                           facts := facts o;
                           confidence := q;
                           lastUpdated := lastUpdated o;
                           transitions := transitions o;
                           error := error o |}]> (objs h);
         factArrays := factArrays h; transArrays := transArrays h |}
  | PushFact f =>
      {| objs := objs h;
         factArrays := <[facts o := readFacts h (facts o) ++ [f]]> (factArrays h);
         transArrays := transArrays h |}
  | TruncateFacts =>
      {| objs := objs h;
         factArrays := <[facts o := []]> (factArrays h);
         transArrays := transArrays h |}
  | TruncateTransitions =>
      {| objs := objs h;
         factArrays := factArrays h;
         transArrays := <[transitions o := []]> (transArrays h) |}
  end.

Definition callerMutates (r : ref) (m : Mutation) (w : World) : World :=
  set_heap (mutate r m (heap w)) w.

(** The same mutation, on a state held by value. *)
Definition mutated (m : Mutation) (s : Snapshot) : Snapshot :=
  {| s_currentState :=
       match m with AssignCurrentState v => v | _ => s_currentState s end;
     s_previousState := s_previousState s;
     s_facts :=
       match m with
       | PushFact f => s_facts s ++ [f]
       | TruncateFacts => []
       | _ => s_facts s
       end;
     s_confidence :=
       match m with AssignConfidence q => q | _ => s_confidence s end;
     s_lastUpdated := s_lastUpdated s;
     s_transitions :=
       match m with TruncateTransitions => [] | _ => s_transitions s end;
     s_error := s_error s |}.

(** The object [r] and its two arrays are allocated. *)
Definition allocated (h : Heap) (r : ref) : Prop :=
  (r < length (objs h))%nat ∧
  (facts (readObj h r) < length (factArrays h))%nat ∧
  (transitions (readObj h r) < length (transArrays h))%nat.

Global Instance allocated_dec (h : Heap) (r : ref) : Decision (allocated h r).
Proof. unfold allocated. apply _. Defined.

(** ** Runs *)

(** What a program holding the instance can do, and the passing of time. *)
Inductive Action :=
| Subscribe (run : nat)         (* [subscribe(run)] *)
| Unsubscribe (sub : nat)      (* the function returned for the subscription *)
| SetLLMService (service : LLMService)
| Mutate (m : FactMutation)
| ClearFacts
| DetermineState
| Reset
| Wait (t : Z)                 (* time passes until [t] *)
| Touch (m : Mutation).        (* the caller mutates what [getState()] returned *)

Definition perform (a : Action) (w : World) : World :=
  match a with
  | Subscribe run => subscribe run w
  | Unsubscribe sub => unsubscribe sub w
  | SetLLMService service => setLLMService service w
  | Mutate m => applyMutation m w
  | ClearFacts => clearFacts w
  | DetermineState => (determineState w).2
  | Reset => reset w
  | Wait t => advance t w
  | Touch m => callerMutates (getState w) m w
  end.

Definition run (acts : list Action) (w : World) : World :=
  foldl (λ v a, perform a v) w acts.

(** ** Worlds used as examples *)

Definition exampleConfig : StateBotConfig :=
  {| provider := "gemini"; apiKey := "key";
     states := [("A", ["fact1"]); ("B", ["fact2"])];
     cacheExpiry := None; debounceTime := None; retryCount := None;
     determinationThreshold := None |}.

(** The same configuration with every optional number given as 0. *)
Definition zeroConfig : StateBotConfig :=
  {| provider := "gemini"; apiKey := "key";
     states := [("A", ["fact1"]); ("B", ["fact2"])];
     cacheExpiry := Some 0; debounceTime := Some 0; retryCount := Some 0;
     determinationThreshold := Some 0%Q |}.

(** A network that is down. *)
Definition netDown : nat → Client.Attempt :=
  λ _, Client.NetworkError "fetch failed".

(** A network whose first two calls fail and that answers from the third
    call on. *)
Definition netFlaky : nat → Client.Attempt :=
  λ i, match i with
       | 0%nat => Client.NetworkError "fetch failed"
       | 1%nat => Client.Http 503 "Service Unavailable" Client.Unparsable
       | _ => Client.Http 200 "OK"
                (Client.Parsed {| r_state := "A"; r_confidence := 9 # 10;
                                  r_reasoning := None |})
       end.

(** A network that answers at once. *)
Definition noLatency : nat → Z := λ _, 0.

(** The instance built from [zeroConfig] at time 1000 on a network that is
    down. *)
Definition worldOn_zero : World :=
  {| config := defaultedConfig zeroConfig; value := O; subscribers := [];
     nextSubscription := O;
     llmService := Provided Client.Gemini "key" 3; updateTimer := None;
     cache := ∅; heap := initialHeap 1000; now := 1000; timers := [];
     nextTimer := 1%positive; net := netDown; latency := noLatency;
     fetches := O; llmCalls := O; timerRuns := O; delivered := [] |}.

Definition worldOn (n : nat → Client.Attempt) : World :=
  match constructor exampleConfig 1000 n noLatency with
  | inr w => w
  | inl _ =>
      {| config := exampleConfig; value := O; subscribers := [];
         nextSubscription := O;
         llmService := Custom (λ _ _, inl ""); updateTimer := None; cache := ∅;
         heap := initialHeap 0; now := 0; timers := []; nextTimer := 1%positive;
         net := n; latency := noLatency; fetches := O; llmCalls := O;
         timerRuns := O; delivered := [] |}
  end.

(** The same configuration with a debounce time beyond the range of the
    runtime's timer. *)
Definition hugeConfig : StateBotConfig :=
  {| provider := "gemini"; apiKey := "key";
     states := [("A", ["fact1"]); ("B", ["fact2"])];
     cacheExpiry := None; debounceTime := Some 3000000000; retryCount := None;
     determinationThreshold := None |}.

(** A stub service that always answers state "X" with confidence 0.9. *)
Definition stubX : LLMService :=
  Custom (λ _ _, inr {| r_state := "X"; r_confidence := 9 # 10;
                        r_reasoning := None |}).

(** The instance built from [hugeConfig] at time 1000, given the stub
    service. *)
Definition worldHuge : World :=
  match constructor hugeConfig 1000 netDown noLatency with
  | inr w => setLLMService stubX w
  | inl _ => worldOn netDown
  end.

(** An instance with facts ["f1"; "f2"], determined to be in state "X", and
    one subscriber. *)
Definition worldX : World :=
  subscribe 1
    (determineState
       (addFacts [Str "f1"; Str "f2"] (setLLMService stubX (worldOn netDown)))).2.

(** ** States by value *)

(** [{ ...s, error: e }] on a state held by value. *)
Definition setError (e : option string) (s : Snapshot) : Snapshot :=
  {| s_currentState := s_currentState s;
     s_previousState := s_previousState s;
     s_facts := s_facts s;
     s_confidence := s_confidence s;
     s_lastUpdated := s_lastUpdated s;
     s_transitions := s_transitions s;
     s_error := e |}.

(** The state that follows [s] when the determination [(newState, conf)] is
    applied at time [t]. *)
Definition determined (newState : string) (conf : Q) (t : Z) (s : Snapshot)
    : Snapshot :=
  {| s_currentState := Some newState;
     s_previousState :=
       if decide (s_currentState s = Some newState) then s_previousState s
       else s_currentState s;
     s_facts := s_facts s;
     s_confidence := conf;
     s_lastUpdated := t;
     s_transitions :=
       if decide (s_currentState s = Some newState) then s_transitions s
       else s_transitions s ++
              [ {| tr_from := s_currentState s; tr_to := newState;
                   tr_timestamp := t; tr_facts := s_facts s |} ];
     s_error := None |}.

(** [{ ...s, facts: l }] on a state held by value. *)
Definition setFacts (l : list string) (s : Snapshot) : Snapshot :=
  {| s_currentState := s_currentState s;
     s_previousState := s_previousState s;
     s_facts := l;
     s_confidence := s_confidence s;
     s_lastUpdated := s_lastUpdated s;
     s_transitions := s_transitions s;
     s_error := s_error s |}.

(** [{ ...s, currentState: null, confidence: 0 }] on a state held by
    value. *)
Definition cleared (s : Snapshot) : Snapshot :=
  {| s_currentState := None;
     s_previousState := s_previousState s;
     s_facts := s_facts s;
     s_confidence := 0%Q;
     s_lastUpdated := s_lastUpdated s;
     s_transitions := s_transitions s;
     s_error := s_error s |}.

(** What the callbacks of the subscriptions are given when the store is set
    to a state. *)
Definition deliveries (subs : list (nat * nat)) (s : Snapshot)
    : list (nat * Snapshot) :=
  (λ sub, (sub.2, s)) <$> subs.

(** ** The determination cycle, by cases *)

(** The four ways through [updateState]. *)
Inductive Cycle (w : World) : (string + option string) * World → Prop :=
| CycleNoFacts :
    s_facts (snapshot (heap w) (getState w)) = [] →
    Cycle w (inr (s_currentState (snapshot (heap w) (getState w))), w)
| CycleHit e :
    s_facts (snapshot (heap w) (getState w)) ≠ [] →
    cache w !! generateCacheKey (s_facts (snapshot (heap w) (getState w))) = Some e →
    isCacheValid (c_timestamp e) w = true →
    Cycle w (inr (Some (c_state e)),
             updateStateStore (c_state e) (c_confidence e) w)
| CycleAnswer r :
    s_facts (snapshot (heap w) (getState w)) ≠ [] →
    (callService (s_facts (snapshot (heap w) (getState w))) w).1 = inr r →
    Cycle w (inr (Some (r_state r)),
             updateStateStore (r_state r) (r_confidence r)
               (set_cache
                  (<[generateCacheKey (s_facts (snapshot (heap w) (getState w))) :=
                       {| c_state := r_state r; c_confidence := r_confidence r;
                          c_timestamp :=
                            now (callService
                                   (s_facts (snapshot (heap w) (getState w))) w).2
                       |}]> (cache w))
                  (callService (s_facts (snapshot (heap w) (getState w))) w).2))
| CycleFailure msg :
    s_facts (snapshot (heap w) (getState w)) ≠ [] →
    (callService (s_facts (snapshot (heap w) (getState w))) w).1 = inl msg →
    Cycle w (inl msg,
             store_update (withError msg)
               (callService (s_facts (snapshot (heap w) (getState w))) w).2).

(** ** The HTTP handlers of [StateBotStore] *)

(** An element of the [facts] array of a request, as far as [addFacts]
    looks at it. *)
Inductive Element :=
| ElemFact (fact : FactArg)  (* a string, or an object whose [content] is a
                                string *)
| ElemNull (msg : string)    (* [null]: reading [fact.content] throws [msg] *)
| ElemOther.                 (* any other value: it is no string, and its
                                [content] is no string *)

(** What [await request.json()] gives, as far as [handlePostStateFacts]
    looks at it. *)
Inductive RequestBody :=
| BodyRejects (msg : string)     (* [request.json()] rejects with [msg] *)
| BodyNull (msg : string)        (* [null]: reading [body.facts] throws [msg] *)
| BodyNoFacts                    (* [body.facts] is missing or falsy *)
| BodyFactsNotArray              (* [body.facts] is truthy and not an array *)
| BodyFacts (elems : list Element). (* [body.facts] is an array *)

(** The error that [facts.map(...)] of [addFacts] raises on the elements of
    a request: that of the first [null] element. *)
Fixpoint firstNull (elems : list Element) : option string :=
  match elems with
  | [] => None
  | ElemNull msg :: _ => Some msg
  | _ :: elems' => firstNull elems'
  end.

(** The elements as the signature of [addFacts] wants them, when they all
    are so. *)
Fixpoint typed (elems : list Element) : option (list FactArg) :=
  match elems with
  | [] => Some []
  | ElemFact fact :: elems' => (fact ::.) <$> typed elems'
  | _ => None
  end.

(** What is given to [JSON.stringify] for the body of the response. *)
Inductive Payload :=
| StateJson (s : Snapshot)
| ErrorJson (msg : string).

(** [new Response(JSON.stringify(payload), { status, headers })]; the status
    is 200 where the source gives none. *)
Record Response := {
  resp_status : N;
  resp_contentType : string;
  resp_payload : Payload
}.

Definition jsonResponse (status : N) (payload : Payload) : Response :=
  {| resp_status := status; resp_contentType := "application/json";
     resp_payload := payload |}.

(** [handleGetState(_request)] *)
Definition handleGetState (w : World) : Response :=
  jsonResponse 200 (StateJson (snapshot (heap w) (getState w))).

(** [handlePostStateFacts(request)].  An error raised in the [try] block is
    answered with status 500: so is the one [addFacts] raises on a [null]
    element, before it has updated the store.  An array without [null] one
    of whose elements is neither a string nor an object with a string
    [content] leaves a value that is not a string among the facts, which
    the record of this model, with its facts of type [string[]], cannot
    hold: there the handler is not modelled ([None]). *)
Definition handlePostStateFacts (body : RequestBody) (w : World)
    : option (Response * World) :=
  match body with
  | BodyRejects msg => Some (jsonResponse 500 (ErrorJson msg), w)
  | BodyNull msg => Some (jsonResponse 500 (ErrorJson msg), w)
  | BodyNoFacts | BodyFactsNotArray =>
      Some (jsonResponse 400 (ErrorJson "Invalid request. Expected facts array."),
            w)
  | BodyFacts elems =>
      match firstNull elems with
      | Some msg => Some (jsonResponse 500 (ErrorJson msg), w)
      | None =>
          match typed elems with
          | None => None
          | Some fs =>
              let w1 := addFacts fs w in
              match determineState w1 with
              | (inr _, w2) =>
                  Some (jsonResponse 200
                          (StateJson (snapshot (heap w2) (getState w2))), w2)
              | (inl msg, w2) => Some (jsonResponse 500 (ErrorJson msg), w2)
              end
          end
      end
  end.

(** ** The record through a run, by value *)

(** The record of a new or reset instance. *)
Definition initialState (t : Z) : Snapshot :=
  {| s_currentState := None; s_previousState := None; s_facts := [];
     s_confidence := 0%Q; s_lastUpdated := t; s_transitions := [];
     s_error := None |}.

(** One update of the store other than [reset()], on the record held by
    value: the facts are replaced, the state is cleared, a determination is
    applied (on whatever facts the record then holds), an error is
    recorded. *)
Inductive Step : Snapshot → Snapshot → Prop :=
| StepFacts l s : Step s (setFacts l s)
| StepCleared s : Step s (cleared s)
| StepDetermined st conf t s : Step s (determined st conf t s)
| StepError msg s : Step s (setError (Some msg) s).

(** The audit trail is well formed: no transition goes from a state to
    itself, [previousState] is where the last transition came from, a
    current state is where the last transition went, and without a current
    state the confidence is 0. *)
Definition wellFormedHistory (s : Snapshot) : Prop :=
  Forall (λ tr, tr_from tr ≠ Some (tr_to tr)) (s_transitions s) ∧
  s_previousState s = (last (s_transitions s) ≫= tr_from) ∧
  (∀ c, s_currentState s = Some c → tr_to <$> last (s_transitions s) = Some c) ∧
  (s_currentState s = None → s_confidence s = 0%Q).

(** The actions of the instance itself: all but a caller's mutation of the
    object it got from [getState()]. *)
Definition ownAction (a : Action) : bool :=
  match a with
  | Touch _ => false
  | _ => true
  end.

(** A run in which calls of the service are awaited.  While a cycle awaits
    its call, the instance can be used; when the call returns, the cycle
    goes on, whatever has become of the record meanwhile: it writes the
    answer in the cache, under the key it computed before the call, and
    applies it to the store, or it records the error.  An event is an action,
    or the going on of a cycle begun before. *)
Inductive Event :=
| Act (a : Action)
| Answered (cacheKey : string) (response : LLMStateResponse)
| Failed (msg : string).

Definition happen (e : Event) (w : World) : World :=
  match e with
  | Act a => perform a w
  | Answered cacheKey response =>
      updateStateStore (r_state response) (r_confidence response)
        (set_cache (<[cacheKey := {| c_state := r_state response;
                                     c_confidence := r_confidence response;
                                     c_timestamp := now w |}]> (cache w)) w)
  | Failed msg => store_update (withError msg) w
  end.

Definition happenAll (evs : list Event) (w : World) : World :=
  foldl (λ v e, happen e v) w evs.

(** The events of the instance itself: all but a caller's mutation of the
    object it got from [getState()]. *)
Definition ownEvent (e : Event) : bool :=
  match e with
  | Act a => ownAction a
  | _ => true
  end.

(** The actions that keep the history: all but [reset()] and a caller's
    mutation. *)
Definition keepsHistory (a : Action) : bool :=
  match a with
  | Touch _ | Reset => false
  | _ => true
  end.

(** What the callback [cb] has been given so far. *)
Definition received (cb : nat) (w : World) : list Snapshot :=
  snd <$> filter (λ d, d.1 = cb) (delivered w).

(** The callbacks that are subscribed. *)
Definition callbacks (w : World) : list nat := snd <$> subscribers w.

(** Does the string hold the character? *)
Fixpoint contains (c : Ascii.ascii) (s : string) : bool :=
  match s with
  | EmptyString => false
  | String a s' => if decide (a = c) then true else contains c s'
  end.

(** The last time of a burst that starts at [t0]. *)
Definition lastTime (t0 : Z) (evs : list (Z * FactMutation)) : Z :=
  default t0 (fst <$> last evs).

(** ** More vocabulary for runs *)

(** From [w] to [w'] the subscriptions are the same, and what was delivered
    in between was delivered to their callbacks. *)
Definition toldSubscribers (w w' : World) : Prop :=
  subscribers w' = subscribers w ∧
  nextSubscription w' = nextSubscription w ∧
  ∃ told, delivered w' = delivered w ++ told ∧
          Forall (λ d, d.1 ∈ callbacks w) told.

(** Does the action subscribe the callback [cb]? *)
Definition subscribes (cb : nat) (a : Action) : bool :=
  match a with
  | Subscribe cb' => bool_decide (cb' = cb)
  | _ => false
  end.

(** Does the event subscribe the callback [cb]? *)
Definition subscribesEvent (cb : nat) (e : Event) : bool :=
  match e with
  | Act a => subscribes cb a
  | _ => false
  end.

(** The subscriptions the writable holds are distinct, and were made before
    the next one. *)
Definition subscriptionsDistinct (w : World) : Prop :=
  NoDup (fst <$> subscribers w) ∧
  Forall (λ s, (s.1 < nextSubscription w)%nat) (subscribers w).

(** Is the action [reset()]? *)
Definition isReset (a : Action) : bool :=
  match a with
  | Reset => true
  | _ => false
  end.

(** The character '|', the delimiter of the cache key. *)
Definition bar : Ascii.ascii :=
  Ascii.Ascii false false true true true true true false.

(** The actions that edit the facts or the subscribers and determine
    nothing: fact mutations, [clearFacts()], (un)subscriptions and the
    replacement of the service. *)
Definition isEdit (a : Action) : bool :=
  match a with
  | Mutate _ | ClearFacts | Subscribe _ | Unsubscribe _ | SetLLMService _ => true
  | _ => false
  end.

(** * Properties *)

(** ** The heap and the Svelte store *)

Lemma readObj_allocObj (o : StateBotState) (h : Heap) :
  readObj (allocObj o h).2 (allocObj o h).1 = o.
Proof.
  unfold readObj, allocObj; simpl.
  by rewrite (list_lookup_total_middle (objs h) [] o).
Qed.

Lemma view_allocObj (o o' : StateBotState) (h : Heap) :
  view (allocObj o' h).2 o = view h o.
Proof. reflexivity. Qed.

Lemma readFacts_allocFacts (l : list string) (h : Heap) :
  readFacts (allocFacts l h).2 (allocFacts l h).1 = l.
Proof.
  unfold readFacts, allocFacts; simpl.
  by rewrite (list_lookup_total_middle (factArrays h) [] l).
Qed.

Lemma readTrans_allocTrans (l : list Transition) (h : Heap) :
  readTrans (allocTrans l h).2 (allocTrans l h).1 = l.
Proof.
  unfold readTrans, allocTrans; simpl.
  by rewrite (list_lookup_total_middle (transArrays h) [] l).
Qed.

(** After an update, the store holds the object the updater built. *)
Lemma snapshot_store_update fn (w : World) :
  let built := fn (readObj (heap w) (value w)) (heap w) in
  snapshot (heap (store_update fn w)) (value (store_update fn w))
  = view built.2 built.1.
Proof.
  intros built. unfold snapshot, store_update.
  cbn [heap value store_set notify set_value set_heap set_delivered].
  fold built. by rewrite readObj_allocObj.
Qed.

Lemma readObj_store_update fn (w : World) :
  readObj (heap (store_update fn w)) (value (store_update fn w))
  = (fn (readObj (heap w) (value w)) (heap w)).1.
Proof.
  unfold store_update.
  cbn [heap value store_set notify set_value set_heap set_delivered].
  apply readObj_allocObj.
Qed.

Lemma factArrays_store_update fn (w : World) :
  factArrays (heap (store_update fn w))
  = factArrays (fn (readObj (heap w) (value w)) (heap w)).2.
Proof. reflexivity. Qed.

Lemma transArrays_store_update fn (w : World) :
  transArrays (heap (store_update fn w))
  = transArrays (fn (readObj (heap w) (value w)) (heap w)).2.
Proof. reflexivity. Qed.

(** One update of the store, seen from the object it leaves behind. *)
Ltac store_step :=
  rewrite ?readObj_store_update, ?factArrays_store_update,
    ?transArrays_store_update;
  cbn [fst snd withFacts withError allocFacts allocTrans currentState
       previousState facts confidence lastUpdated transitions error
       objs factArrays transArrays].

Ltac by_value :=
  unfold getState, snapshot, view, readFacts, readTrans.

(** ** C1: the transition append law *)

Lemma snapshot_updateStateStore (newState : string) (conf : Q) (w : World) :
  let w' := updateStateStore newState conf w in
  snapshot (heap w') (value w')
  = determined newState conf (now w) (snapshot (heap w) (value w)).
Proof.
  intros w'. subst w'. unfold updateStateStore, determined. by_value.
  store_step. cbn [s_currentState s_previousState s_transitions s_facts].
  case_bool_decide; case_decide; try done; cbn [fst snd transArrays].
  f_equal. by apply (list_lookup_total_middle _ []).
Qed.

(** C1. Applying a determination result [(newState, conf)]: the transitions
    grow by exactly the record [{from: old current, to: newState, timestamp:
    now, facts: the active facts}] when [newState] differs from the current
    state and are unchanged otherwise (so they grow if and only if the state
    changed); [lastUpdated] and [confidence] are refreshed in both cases;
    [previousState] becomes the old current state only when the state
    changed. *)
Theorem updateStateStore_transition_law (newState : string) (conf : Q) (w : World) :
  let s := snapshot (heap w) (getState w) in
  let w' := updateStateStore newState conf w in
  let s' := snapshot (heap w') (getState w') in
  s_transitions s' =
    (if decide (s_currentState s = Some newState) then s_transitions s
     else s_transitions s ++
            [ {| tr_from := s_currentState s; tr_to := newState;
                 tr_timestamp := now w; tr_facts := s_facts s |} ]) ∧
  (length (s_transitions s') = S (length (s_transitions s))
     ↔ s_currentState s ≠ Some newState) ∧
  (s_transitions s' = s_transitions s ↔ s_currentState s = Some newState) ∧
  s_previousState s' =
    (if decide (s_currentState s = Some newState) then s_previousState s
     else s_currentState s) ∧
  s_currentState s' = Some newState ∧
  s_confidence s' = conf ∧
  s_lastUpdated s' = now w ∧
  s_facts s' = s_facts s ∧
  s_error s' = None.
Proof.
  intros s w' s'.
  assert (Hs' : s' = determined newState conf (now w) s)
    by apply snapshot_updateStateStore.
  rewrite Hs'. unfold determined; cbn [s_transitions s_previousState
    s_currentState s_confidence s_lastUpdated s_facts s_error].
  split; [done|]. split.
  { case_decide.
    - split; [lia|done].
    - rewrite length_app; simpl. split; [done|lia]. }
  split; [|done].
  case_decide; [done|]. split; [|done]. intros Heq.
  apply (f_equal length) in Heq. rewrite length_app in Heq. simpl in Heq. lia.
Qed.

(** ** C7: clearing the facts *)

(** C7. [clearFacts()] leaves the store with no facts, no current state and
    confidence 0; [previousState] and the transitions are as before; no
    backend call is made, no [fetch]; no timeout is armed or cancelled and
    the debounce callback does not run; the cache is untouched. *)
Theorem clearFacts_resets_synchronously (w : World) :
  let s := snapshot (heap w) (getState w) in
  let w' := clearFacts w in
  let s' := snapshot (heap w') (getState w') in
  s_facts s' = [] ∧ s_currentState s' = None ∧ s_confidence s' = 0%Q ∧
  s_previousState s' = s_previousState s ∧
  s_transitions s' = s_transitions s ∧
  llmCalls w' = llmCalls w ∧ fetches w' = fetches w ∧
  timers w' = timers w ∧ updateTimer w' = updateTimer w ∧
  nextTimer w' = nextTimer w ∧ timerRuns w' = timerRuns w ∧
  cache w' = cache w.
Proof.
  intros s w' s'.
  assert (Hs' : s' = {| s_currentState := None;
                        s_previousState := s_previousState s;
                        s_facts := [];
                        s_confidence := 0%Q;
                        s_lastUpdated := s_lastUpdated s;
                        s_transitions := s_transitions s;
                        s_error := s_error s |}).
  { subst s' w' s. unfold clearFacts. by_value. do 2 store_step.
    cbn [s_previousState s_lastUpdated s_transitions s_error]. f_equal.
    by apply (list_lookup_total_middle _ [] []). }
  rewrite Hs'. repeat split.
Qed.

(** ** The determination cycle *)

Lemma timerDelay_pos (delay : Z) : 1 ≤ timerDelay delay.
Proof. unfold timerDelay. case_decide; lia. Qed.

Lemma timerDelay_in_range (delay : Z) :
  1 ≤ delay ≤ 2147483647 → timerDelay delay = delay.
Proof. intros H. unfold timerDelay. by rewrite decide_True. Qed.

Lemma callTime_nonneg (delays : list Z) (w : World) : 0 ≤ callTime delays w.
Proof.
  unfold callTime.
  assert (0 ≤ total (timerDelay <$> delays)); [|lia].
  unfold total. induction delays as [|d l IH]; [done|].
  rewrite fmap_cons. cbn [foldr]. pose proof (timerDelay_pos d). lia.
Qed.

(** Calling the service touches only the counters of calls and the clock,
    which does not go back. *)
Lemma callService_frame (fs : list string) (w : World) :
  let w' := (callService fs w).2 in
  heap w' = heap w ∧ value w' = value w ∧ now w ≤ now w' ∧
  cache w' = cache w ∧ config w' = config w ∧ timers w' = timers w ∧
  updateTimer w' = updateTimer w ∧ nextTimer w' = nextTimer w ∧
  timerRuns w' = timerRuns w ∧ subscribers w' = subscribers w ∧
  llmService w' = llmService w ∧ llmCalls w' = S (llmCalls w).
Proof.
  unfold callService.
  destruct (llmService w) as [p key retries|f] eqn:E; simpl; rewrite ?E;
    repeat split.
  - pose proof (callTime_nonneg
                  (Client.delays (Client.determineState p retries (net w) (fetches w)))
                  w). lia.
  - pose proof (callTime_nonneg [] w). lia.
Qed.

Lemma updateState_Cycle (w : World) : Cycle w (updateState w).
Proof.
  unfold updateState.
  change (readFacts (heap w) (facts (readObj (heap w) (getState w))))
    with (s_facts (snapshot (heap w) (getState w))).
  change (currentState (readObj (heap w) (getState w)))
    with (s_currentState (snapshot (heap w) (getState w))).
  set (fs := s_facts (snapshot (heap w) (getState w))).
  case_decide as Hlen.
  { apply CycleNoFacts. fold fs. by destruct fs. }
  assert (Hne : fs ≠ []) by (by intros ->).
  pose proof (callService_frame fs w) as (_ & _ & _ & Hcache & _).
  assert (Hmiss : Cycle w
    match callService fs w with
    | (inr response, w1) =>
        (inr (Some (r_state response)),
         updateStateStore (r_state response) (r_confidence response)
           (set_cache (<[generateCacheKey fs :=
                           {| c_state := r_state response;
                              c_confidence := r_confidence response;
                              c_timestamp := now w1 |}]> (cache w1)) w1))
    | (inl msg, w1) => (inl msg, store_update (withError msg) w1)
    end).
  { destruct (callService fs w) as [[msg|r] w1] eqn:Hcall; simpl in *.
    - pose proof (CycleFailure w msg Hne) as H.
      change (s_facts (snapshot (heap w) (getState w))) with fs in H.
      rewrite Hcall in H. by apply H.
    - pose proof (CycleAnswer w r Hne) as H.
      change (s_facts (snapshot (heap w) (getState w))) with fs in H.
      rewrite Hcall in H. simpl in H. rewrite Hcache. by apply H. }
  destruct (cache w !! generateCacheKey fs) as [e|] eqn:He; [|done].
  destruct (isCacheValid (c_timestamp e) w) eqn:Hv; [|done].
  by apply CycleHit.
Qed.

(** ** C2: a failed determination keeps the state *)

Lemma snapshot_withError (msg : string) (w : World) :
  let w' := store_update (withError msg) w in
  snapshot (heap w') (value w') = setError (Some msg) (snapshot (heap w) (value w)).
Proof. intros w'. subst w'. by_value. by store_step. Qed.

Lemma snapshot_callService (fs : list string) (w : World) :
  let w' := (callService fs w).2 in
  snapshot (heap w') (value w') = snapshot (heap w) (value w).
Proof.
  intros w'. destruct (callService_frame fs w) as (Hh & Hv & _).
  subst w'. by rewrite Hh, Hv.
Qed.

Lemma snapshot_set_timerRuns n (w : World) :
  snapshot (heap (set_timerRuns n w)) (value (set_timerRuns n w))
  = snapshot (heap w) (value w).
Proof. reflexivity. Qed.

Lemma updateState_inl (w : World) msg w1 :
  updateState w = (inl msg, w1) →
  (callService (s_facts (snapshot (heap w) (value w))) w).1 = inl msg ∧
  snapshot (heap w1) (value w1) = setError (Some msg) (snapshot (heap w) (value w)).
Proof.
  intros E. pose proof (updateState_Cycle w) as HC. rewrite E in HC.
  inversion HC as [ | | |msg' Hf Hcall]. subst msg'.
  split; [exact Hcall|].
  subst w1. rewrite (snapshot_withError msg). f_equal.
  apply snapshot_callService.
Qed.

Lemma timerCallback_inl (w : World) msg w1 :
  updateState w = (inl msg, w1) →
  snapshot (heap (timerCallback w)) (value (timerCallback w))
  = setError (Some msg) (snapshot (heap w) (value w)).
Proof.
  intros E. unfold timerCallback. rewrite E.
  rewrite snapshot_set_timerRuns, (snapshot_withError msg).
  apply updateState_inl in E as [_ ->]. done.
Qed.

Lemma updateState_inr (w : World) st w1 :
  updateState w = (inr st, w1) →
  s_error (snapshot (heap w1) (value w1))
  = (if decide (s_facts (snapshot (heap w) (value w)) = [])
     then s_error (snapshot (heap w) (value w)) else None).
Proof.
  intros E. pose proof (updateState_Cycle w) as HC. rewrite E in HC.
  inversion HC as [Hf|e Hf He Hv|r Hf Hcall| ]; unfold getState in Hf.
  - by rewrite decide_True.
  - rewrite decide_False by done. by rewrite snapshot_updateStateStore.
  - rewrite decide_False by done. by rewrite snapshot_updateStateStore.
Qed.


(** Both branches are taken.  With the network down the cycle fails and the
    message is recorded; once a service answers, the next cycle clears it. *)
Example error_recorded_then_cleared :
  let w := addFact (Str "fact1") (worldOn netDown) in
  let failed := determineState w in
  let retried := determineState (setLLMService stubX failed.2) in
  failed.1 = inl "fetch failed" ∧
  s_error (snapshot (heap failed.2) (getState failed.2)) = Some "fetch failed" ∧
  s_facts (snapshot (heap failed.2) (getState failed.2)) = ["fact1"] ∧
  retried.1 = inr (Some "X") ∧
  s_error (snapshot (heap retried.2) (getState retried.2)) = None.
Proof. vm_compute. by repeat split. Qed.

(** ** C3: the cache key *)

Lemma merge_sort_permutation_invariant (fs1 fs2 : list string) :
  fs1 ≡ₚ fs2 → merge_sort String.le fs1 = merge_sort String.le fs2.
Proof.
  intros Hp. apply (Sorted_unique String.le).
  - apply (Sorted_merge_sort String.le).
  - apply (Sorted_merge_sort String.le).
  - by rewrite !merge_sort_Permutation.
Qed.

(** C3. Two lists of facts that are permutations of each other have the same
    cache key, hence the same cache entry in every cache; the key is the
    lexicographically sorted list joined by '|', and the sorted list holds
    every fact as many times as the list of facts does. *)
Theorem generateCacheKey_permutation (fs1 fs2 : list string) :
  fs1 ≡ₚ fs2 →
  generateCacheKey fs1 = generateCacheKey fs2 ∧
  (∀ c : gmap string CacheEntry,
     c !! generateCacheKey fs1 = c !! generateCacheKey fs2) ∧
  ∃ sorted : list string,
    generateCacheKey fs1 = String.concat "|" sorted ∧
    Sorted String.le sorted ∧
    sorted ≡ₚ fs1 ∧
    (∀ f, length (filter (λ x, x = f) sorted) = length (filter (λ x, x = f) fs1)).
Proof.
  intros Hp.
  assert (Hk : generateCacheKey fs1 = generateCacheKey fs2).
  { unfold generateCacheKey. f_equal. by apply merge_sort_permutation_invariant. }
  split; [exact Hk|]. split; [by intros c; rewrite Hk|].
  exists (merge_sort String.le fs1). split; [done|].
  split; [apply (Sorted_merge_sort String.le)|].
  split; [apply merge_sort_Permutation|].
  intros f. by rewrite (merge_sort_Permutation String.le fs1).
Qed.

Lemma generateCacheKey_permutation_witness :
  generateCacheKey ["b"; "a"; "a"] = generateCacheKey ["a"; "b"; "a"] ∧
  generateCacheKey ["b"; "a"; "a"] = "a|a|b".
Proof.
  split.
  - apply (generateCacheKey_permutation ["b"; "a"; "a"] ["a"; "b"; "a"]).
    apply perm_swap.
  - reflexivity.
Defined.

(** ** C4: the retry loop of the LLM clients *)

Section RetryLoop.
Variables (p : Client.Provider) (net : nat → Client.Attempt) (base : nat).

(** The loop makes at least one more attempt when it may, never more than it
    may, and sleeps [2^a * 500] after its [a]-th failure unless that was the
    last attempt. *)
Lemma retryLoop_attempts_delays (remaining : nat) :
  ∀ attempts lastError delays,
    let run := Client.retryLoop p net base remaining attempts lastError delays in
    (attempts ≤ Client.attempts run ≤ attempts + remaining)%nat ∧
    (0 < remaining → attempts < Client.attempts run)%nat ∧
    Client.delays run =
      delays ++ ((λ a, 2 ^ Z.of_nat a * 500) <$>
                   seq (S attempts) (Client.attempts run - attempts - 1)).
Proof.
  induction remaining as [|r IH]; intros attempts lastError delays; simpl.
  - split; [lia|]. split; [lia|].
    replace (attempts - attempts - 1)%nat with 0%nat by lia.
    simpl. by rewrite app_nil_r.
  - destruct (Client.tryOnce p (net (base + attempts)%nat)) as [e|resp]; simpl.
    + specialize (IH (S attempts) (Some e)
                     (match r with
                      | O => delays
                      | S _ => delays ++ [2 ^ Z.of_nat (S attempts) * 500]
                      end)).
      simpl in IH. destruct IH as (Hrange & Hmore & Hdelays).
      split; [lia|]. split; [lia|].
      rewrite Hdelays. destruct r as [|r'].
      * replace (Client.attempts
                   (Client.retryLoop p net base 0 (S attempts) (Some e) delays)
                 - attempts - 1)%nat with 0%nat by (simpl; lia).
        replace (Client.attempts
                   (Client.retryLoop p net base 0 (S attempts) (Some e) delays)
                 - S attempts - 1)%nat with 0%nat by (simpl; lia).
        done.
      * specialize (Hmore ltac:(lia)).
        set (a' := Client.attempts _) in *.
        replace (a' - attempts - 1)%nat with (S (a' - S attempts - 1)) by lia.
        rewrite <- app_assoc. done.
    + split; [lia|]. split; [lia|].
      replace (S attempts - attempts - 1)%nat with 0%nat by lia.
      simpl. by rewrite app_nil_r.
Qed.

(** The first success ends the loop with the answer. *)
Lemma retryLoop_first_success (k : nat) (resp : LLMStateResponse) :
  ∀ remaining attempts lastError delays,
    (k < remaining)%nat →
    (∀ i, (i < k)%nat → Client.fails p (net (base + attempts + i)%nat)) →
    Client.tryOnce p (net (base + attempts + k)%nat) = inr resp →
    let run := Client.retryLoop p net base remaining attempts lastError delays in
    Client.result run = inr resp ∧ Client.attempts run = (attempts + S k)%nat.
Proof.
  induction k as [|k IH]; intros remaining attempts lastError delays Hk Hfail Hok;
    (destruct remaining as [|r]; [lia|]); simpl.
  - rewrite Nat.add_0_r in Hok. rewrite Hok. simpl. split; [done|lia].
  - destruct (Hfail 0%nat ltac:(lia)) as [e He].
    rewrite Nat.add_0_r in He. rewrite He.
    replace (attempts + S (S k))%nat with (S attempts + S k)%nat by lia.
    apply IH; [lia| |].
    + intros i Hi. replace (base + S attempts + i)%nat
        with (base + attempts + S i)%nat by lia. apply Hfail. lia.
    + by replace (base + S attempts + k)%nat
        with (base + attempts + S k)%nat by lia.
Qed.

(** When every attempt fails, the loop makes them all and throws the error
    of the last one. *)
Lemma retryLoop_exhausted (remaining : nat) :
  ∀ attempts lastError delays,
    (∀ i, (i < remaining)%nat → Client.fails p (net (base + attempts + i)%nat)) →
    let run := Client.retryLoop p net base remaining attempts lastError delays in
    Client.attempts run = (attempts + remaining)%nat ∧
    ((0 < remaining)%nat →
     ∃ e, Client.tryOnce p (net (base + attempts + (remaining - 1))%nat) = inl e ∧
          Client.result run = inl e) ∧
    (remaining = 0%nat → ∀ e, lastError = Some e → Client.result run = inl e).
Proof.
  induction remaining as [|r IH]; intros attempts lastError delays Hfail; simpl.
  - split; [lia|]. split; [lia|]. by intros _ e ->.
  - destruct (Hfail 0%nat ltac:(lia)) as [e He].
    rewrite Nat.add_0_r in He. rewrite He.
    edestruct (IH (S attempts) (Some e)) as (Ha & Hlast & Hnone).
    { intros i Hi. replace (base + S attempts + i)%nat
        with (base + attempts + S i)%nat by lia. apply Hfail. lia. }
    split; [rewrite Ha; lia|]. split; [|done]. intros _.
    destruct r as [|r'].
    + exists e. rewrite Nat.add_0_r. split; [done|]. by apply Hnone.
    + destruct (Hlast ltac:(lia)) as (e' & He' & Hres).
      exists e'. split; [|done].
      rewrite <- He'. do 2 f_equal. simpl. lia.
Qed.

End RetryLoop.



(** ** C10: the defaults of the constructor *)

Lemma orZ_cases (a : option Z) (d : Z) :
  (a = None → orZ a d = d) ∧ (a = Some 0 → orZ a d = d) ∧
  (∀ v, a = Some v → v ≠ 0 → orZ a d = v).
Proof.
  repeat split.
  - by intros ->.
  - by intros ->.
  - intros v -> Hv. simpl. by rewrite decide_False.
Qed.

Lemma constructor_inr (cfg : StateBotConfig) (t : Z) (n : nat → Client.Attempt)
    (l : nat → Z) (w : World) :
  constructor cfg t n l = inr w →
  config w = defaultedConfig cfg ∧
  createLLMService (defaultedConfig cfg) = inr (llmService w) ∧
  now w = t ∧ timers w = [] ∧ updateTimer w = None ∧
  nextTimer w = 1%positive ∧ net w = n ∧ fetches w = 0%nat ∧
  llmCalls w = 0%nat ∧ cache w = ∅ ∧
  snapshot (heap w) (getState w)
  = {| s_currentState := None; s_previousState := None; s_facts := [];
       s_confidence := 0%Q; s_lastUpdated := t; s_transitions := [];
       s_error := None |}.
Proof.
  unfold constructor.
  destruct (createLLMService (defaultedConfig cfg)) as [e|service]; [done|].
  intros [= <-]. by repeat split.
Qed.

(** C10. The constructor defaults the four optional numbers with [||]: a
    value given as 0 is replaced by the default (300000, 500, 3, 0.7), as an
    absent one is, and any other value is kept.  With [retryCount: 0] the
    client is built with 3 attempts and makes all 3 against a backend that
    keeps failing; with [debounceTime: 0] a fact mutation arms the timer 500
    time-units ahead. *)
Theorem constructor_defaults_with_or (cfg : StateBotConfig) (t : Z)
    (n : nat → Client.Attempt) (l : nat → Z) (w : World) :
  constructor cfg t n l = inr w →
  (cacheExpiry cfg = Some 0 → cacheExpiry (config w) = Some 300000) ∧
  (debounceTime cfg = Some 0 →
     debounceTime (config w) = Some 500 ∧
     ∀ fact, timers (addFact fact w) = [(1%positive, t + 500)]) ∧
  (retryCount cfg = Some 0 →
     retryCount (config w) = Some 3 ∧
     (∃ p, llmService w = Provided p (apiKey cfg) 3) ∧
     ((∀ p i, Client.fails p (n i)) →
        ∀ fs, fetches (callService fs w).2 = 3%nat)) ∧
  (∀ q, determinationThreshold cfg = Some q → (q == 0)%Q →
     determinationThreshold (config w) = Some (7 # 10)) ∧
  (cacheExpiry cfg = None → cacheExpiry (config w) = Some 300000) ∧
  (debounceTime cfg = None → debounceTime (config w) = Some 500) ∧
  (retryCount cfg = None → retryCount (config w) = Some 3) ∧
  (determinationThreshold cfg = None →
     determinationThreshold (config w) = Some (7 # 10)) ∧
  (∀ v, v ≠ 0 →
     (cacheExpiry cfg = Some v → cacheExpiry (config w) = Some v) ∧
     (debounceTime cfg = Some v → debounceTime (config w) = Some v) ∧
     (retryCount cfg = Some v → retryCount (config w) = Some v)).
Proof.
  intros Hc.
  destruct (constructor_inr cfg t n l w Hc)
    as (Hcfg & Hsvc & Hnow & Htimers & Htimer & Hnext & Hnet & Hfetch & _).
  rewrite Hcfg. cbn [defaultedConfig cacheExpiry debounceTime retryCount
                      determinationThreshold].
  split; [by intros ->|].
  split.
  { intros Hd. rewrite Hd. split; [done|]. intros fact.
    unfold addFact, scheduleStateUpdate.
    change (updateTimer (store_update ?f w)) with (updateTimer w).
    rewrite Htimer.
    change (config (store_update ?f w)) with (config w).
    rewrite Hcfg. cbn [defaultedConfig debounceTime]. rewrite Hd.
    unfold setTimeout.
    change (timers (store_update ?f w)) with (timers w).
    change (now (store_update ?f w)) with (now w).
    change (nextTimer (store_update ?f w)) with (nextTimer w).
    cbn [timers set_updateTimer set_nextTimer set_timers fst snd].
    by rewrite Htimers, Hnow, Hnext, timerDelay_in_range. }
  split.
  { intros Hr. rewrite Hr. split; [done|].
    assert (Hp : ∃ p, llmService w = Provided p (apiKey cfg) 3).
    { revert Hsvc. unfold createLLMService.
      cbn [defaultedConfig provider apiKey retryCount]. rewrite Hr.
      repeat case_decide; intros [= <-]; by eexists. }
    split; [exact Hp|]. intros Hfail fs. destruct Hp as [p Hp].
    unfold callService. rewrite Hp. cbn [snd fetches set_fetches].
    rewrite Hfetch.
    destruct (retryLoop_exhausted p (net w) 0 3 0 None []) as [Ha _].
    { intros i _. rewrite Hnet. apply Hfail. }
    exact Ha. }
  split.
  { intros q -> Hq. cbn [orQ]. by rewrite (Qeq_eq_bool _ _ Hq). }
  repeat split; try (by intros ->).
  - intros ->. cbn [orZ]. by rewrite decide_False.
  - intros ->. cbn [orZ]. by rewrite decide_False.
  - intros ->. cbn [orZ]. by rewrite decide_False.
Qed.

Lemma constructor_defaults_with_or_witness :
  constructor zeroConfig 1000 netDown noLatency = inr (worldOn_zero) ∧
  cacheExpiry (config worldOn_zero) = Some 300000.
Proof.
  split; [reflexivity|].
  destruct (constructor_defaults_with_or zeroConfig 1000 netDown noLatency worldOn_zero
              eq_refl) as [Hexpiry _].
  apply Hexpiry. reflexivity.
Defined.

(** ** C5: the debounce scheduler *)

(** An update of the store leaves the timers, the clock and the
    configuration alone. *)
Lemma store_update_env fn (w : World) :
  let w' := store_update fn w in
  timers w' = timers w ∧ updateTimer w' = updateTimer w ∧
  nextTimer w' = nextTimer w ∧ now w' = now w ∧ config w' = config w ∧
  timerRuns w' = timerRuns w ∧ llmCalls w' = llmCalls w ∧
  cache w' = cache w ∧ fetches w' = fetches w.
Proof. by repeat split. Qed.

Lemma updateState_env (w : World) :
  let w' := (updateState w).2 in
  timers w' = timers w ∧ updateTimer w' = updateTimer w ∧
  nextTimer w' = nextTimer w ∧ now w ≤ now w' ∧ config w' = config w ∧
  timerRuns w' = timerRuns w.
Proof.
  intros w'. subst w'.
  pose proof (updateState_Cycle w) as HC.
  destruct (updateState w) as [res w1]. cbn [snd].
  inversion HC as [Hf|e Hf He Hv|r Hf Hcall|msg Hf Hcall]; subst.
  - by repeat split.
  - by repeat split.
  - destruct (callService_frame (s_facts (snapshot (heap w) (getState w))) w)
      as (_ & _ & Hn & _ & Hc & Ht & Hu & Hx & Hr & _).
    rewrite <- Ht, <- Hu, <- Hx, <- Hc, <- Hr. by repeat split.
  - destruct (callService_frame (s_facts (snapshot (heap w) (getState w))) w)
      as (_ & _ & Hn & _ & Hc & Ht & Hu & Hx & Hr & _).
    rewrite <- Ht, <- Hu, <- Hx, <- Hc, <- Hr. by repeat split.
Qed.

Lemma timerCallback_env (w : World) :
  let w' := timerCallback w in
  timers w' = timers w ∧ updateTimer w' = updateTimer w ∧
  nextTimer w' = nextTimer w ∧ now w ≤ now w' ∧ config w' = config w ∧
  timerRuns w' = S (timerRuns w).
Proof.
  intros w'. subst w'. unfold timerCallback.
  destruct (updateState_env w) as (Ht & Hu & Hx & Hn & Hc & Hr).
  destruct (updateState w) as [[msg|st] w1]; cbn [snd] in *.
  - rewrite <- Ht, <- Hu, <- Hx, <- Hc, <- Hr. by repeat split.
  - rewrite <- Ht, <- Hu, <- Hx, <- Hc, <- Hr. by repeat split.
Qed.

(** Arming the timer leaves exactly one pending timeout, due from now by
    the debounce delay as the runtime gives it. *)
Lemma scheduleStateUpdate_arms (w : World) :
  timersOwned w →
  let w' := scheduleStateUpdate w in
  timers w'
  = [(nextTimer w, now w + timerDelay (default 0 (debounceTime (config w))))] ∧
  updateTimer w' = Some (nextTimer w) ∧
  now w' = now w ∧ config w' = config w ∧ timerRuns w' = timerRuns w.
Proof.
  intros Hown w'. subst w'. unfold scheduleStateUpdate, timersOwned in *.
  assert (Hcleared :
    timers (match updateTimer w with
            | Some id => clearTimeout id w
            | None => w
            end) = []).
  { destruct (updateTimer w) as [id|] eqn:Hid.
    - unfold clearTimeout. cbn [timers set_timers].
      induction Hown as [|t ts Ht _ IH]; [done|].
      rewrite filter_cons_False; [exact IH|].
      intros Hne. apply Hne. by injection Ht.
    - by destruct Hown. }
  destruct (updateTimer w) as [id|]; unfold setTimeout;
    cbn [timers now config nextTimer updateTimer timerRuns set_updateTimer
         set_nextTimer set_timers clearTimeout fst snd] in *;
    by rewrite ?Hcleared.
Qed.

Lemma applyMutation_arms (m : FactMutation) (w : World) :
  timersOwned w →
  let w' := applyMutation m w in
  timers w'
  = [(nextTimer w, now w + timerDelay (default 0 (debounceTime (config w))))] ∧
  updateTimer w' = Some (nextTimer w) ∧
  now w' = now w ∧ config w' = config w ∧ timerRuns w' = timerRuns w.
Proof.
  intros Hown w'. subst w'.
  destruct m; unfold applyMutation, addFact, addFacts, removeFact;
    by apply (scheduleStateUpdate_arms (store_update _ w)).
Qed.

(** Before the pending timeout is due, the passing of time runs nothing. *)
Lemma advance_before_due (t : Z) (w : World) :
  Forall (λ x, t < x.2) (timers w) →
  advance t w = set_now (Z.max t (now w)) w.
Proof.
  intros Hdue. unfold advance.
  replace (filter (λ x, x.2 ≤ t) (timers w)) with (@nil (positive * Z)); [done|].
  symmetry. induction Hdue as [|x xs Hx _ IH]; [done|].
  rewrite filter_cons_False; [exact IH|lia].
Qed.

(** The one pending timeout fires when the clock reaches its due time, and
    not before. *)
Lemma advance_single_exact (t : Z) (w : World) (id : positive) (d : Z) :
  timers w = [(id, d)] →
  timerRuns (advance t w)
  = (if decide (d ≤ t) then S (timerRuns w) else timerRuns w) ∧
  timers (advance t w) = (if decide (d ≤ t) then [] else [(id, d)]).
Proof.
  intros Ht. unfold advance. rewrite Ht.
  destruct (decide (d ≤ t)) as [Hd|Hd].
  - rewrite filter_cons_True by done. rewrite filter_nil.
    cbn [foldl timerRuns timers set_now]. unfold fire.
    rewrite Ht. rewrite bool_decide_eq_true_2 by set_solver.
    destruct (timerCallback_env
                (set_now (Z.max (now w) (id, d).2) (clearTimeout (id, d).1 w)))
      as (Ht' & _ & _ & _ & _ & Hr).
    rewrite Hr, Ht'. split; [done|].
    cbn [timers set_now clearTimeout set_timers fst]. rewrite Ht.
    by rewrite filter_cons_False by (simpl; intros H; by apply H).
  - rewrite filter_cons_False by done. rewrite filter_nil.
    by cbn [foldl timerRuns timers set_now].
Qed.

(** With nothing pending, nothing runs. *)
Lemma advance_idle (t : Z) (w : World) :
  timers w = [] → timerRuns (advance t w) = timerRuns w.
Proof. intros Ht. unfold advance. by rewrite Ht. Qed.

Lemma lastTime_cons (t0 : Z) (x : Z * FactMutation) (evs : list (Z * FactMutation)) :
  lastTime t0 (x :: evs) = lastTime x.1 evs.
Proof.
  unfold lastTime. destruct evs as [|y evs]; [done|].
  rewrite last_cons_cons, last_cons. by destruct (last evs).
Qed.

(** A mutation, on a delay in the range of the runtime's timer: whatever was
    pending, the one timeout pending afterwards is a new one, due one delay
    from now. *)
Lemma applyMutation_rearms (m : FactMutation) (w : World) :
  timersOwned w →
  1 ≤ default 0 (debounceTime (config w)) ≤ 2147483647 →
  let w' := applyMutation m w in
  timers w' = [(nextTimer w, now w + default 0 (debounceTime (config w)))] ∧
  updateTimer w' = Some (nextTimer w) ∧
  now w' = now w ∧ config w' = config w ∧ timerRuns w' = timerRuns w.
Proof.
  intros Hown Hrange w'. subst w'.
  destruct (applyMutation_arms m w Hown) as (Ht & Hrest).
  by rewrite timerDelay_in_range in Ht.
Qed.

(** Through a burst, on a delay in the range of the runtime's timer, the
    callback does not run, and the one pending timeout is due one delay
    after the last mutation. *)
Lemma runBurst_due (evs : list (Z * FactMutation)) :
  ∀ (w : World) (id : positive),
    1 ≤ default 0 (debounceTime (config w)) ≤ 2147483647 →
    timers w = [(id, now w + default 0 (debounceTime (config w)))] →
    updateTimer w = Some id →
    spaced (default 0 (debounceTime (config w))) (now w) evs →
    let w' := runBurst evs w in
    now w' = lastTime (now w) evs ∧
    timerRuns w' = timerRuns w ∧ config w' = config w ∧
    ∃ id', timers w'
           = [(id', now w' + default 0 (debounceTime (config w)))] ∧
           updateTimer w' = Some id'.
Proof.
  induction evs as [|[t m] evs IH]; intros w id Hrange Ht Hu Hsp; simpl.
  - repeat split. by exists id.
  - destruct Hsp as (Hle & Hlt & Hsp).
    rewrite advance_before_due
      by (rewrite Ht; repeat constructor; simpl; lia).
    set (w1 := set_now (Z.max t (now w)) w).
    assert (Hown : timersOwned w1).
    { unfold timersOwned, w1. cbn [timers updateTimer set_now].
      rewrite Ht, Hu. by repeat constructor. }
    destruct (applyMutation_rearms m w1 Hown Hrange)
      as (Ht' & Hu' & Hn' & Hc' & Hr').
    change (config w1) with (config w) in *.
    change (timerRuns w1) with (timerRuns w) in *.
    change (now w1) with (Z.max t (now w)) in *.
    rewrite Z.max_l in Hn', Ht' by lia.
    rewrite lastTime_cons. cbn [fst].
    rewrite <- Hn', <- Hr', <- Hc'.
    apply (IH (applyMutation m w1) (nextTimer w1)).
    + by rewrite Hc'.
    + by rewrite Hc', Hn'.
    + exact Hu'.
    + by rewrite Hc', Hn'.
Qed.

(** An explicit [determineState()] cancels the pending timeout. *)
Lemma determineState_cancels (w : World) (id : positive) (d : Z) :
  timers w = [(id, d)] → updateTimer w = Some id →
  let w' := (determineState w).2 in
  timers w' = [] ∧ updateTimer w' = None ∧ timerRuns w' = timerRuns w.
Proof.
  intros Ht Hu w'. subst w'. unfold determineState. rewrite Hu.
  destruct (updateState_env (set_updateTimer None (clearTimeout id w)))
    as (Ht' & Hu' & _ & _ & _ & Hr').
  rewrite Ht', Hu', Hr'. unfold clearTimeout.
  cbn [timers updateTimer timerRuns set_updateTimer set_timers].
  rewrite Ht. rewrite filter_cons_False by (simpl; intros H; by apply H).
  done.
Qed.

(** C5, as the claim states it, fails: it is stated for every
    [debounceTime], and the runtime's timer keeps a delay of at most
    2147483647.  With [debounceTime: 3000000000] the timeout armed by a
    mutation is due 1 time-unit later: of two mutations 1000 apart, far less
    than [debounceTime], each runs a determination cycle through the
    debounce path. *)
Lemma debounce_beyond_timer_range_runs_every_mutation :
  let w := worldHuge in
  let evs := [(2000, AddFact (Str "fact2"))] in
  let burst := runBurst evs (applyMutation (AddFact (Str "fact1")) w) in
  debounceTime (config w) = Some 3000000000 ∧
  timersOwned w ∧
  spaced (default 0 (debounceTime (config w))) (now w) evs ∧
  timers (applyMutation (AddFact (Str "fact1")) w) = [(1%positive, now w + 1)] ∧
  timerRuns w = 0%nat ∧
  timerRuns burst = 1%nat ∧
  timerRuns (advance 3000 burst) = 2%nat ∧
  llmCalls (advance 3000 burst) = 2%nat ∧
  ¬ (timerRuns (advance 3000 burst) ≤ timerRuns w + 1)%nat.
Proof.
  intros w evs burst.
  split; [reflexivity|]. split; [constructor|].
  split; [simpl; lia|].
  split; [vm_compute; reflexivity|].
  split; [reflexivity|].
  assert (H1 : timerRuns burst = 1%nat) by (vm_compute; reflexivity).
  assert (H2 : timerRuns (advance 3000 burst) = 2%nat) by (vm_compute; reflexivity).
  split; [exact H1|]. split; [exact H2|].
  split; [vm_compute; reflexivity|].
  rewrite H2. simpl. lia.
Qed.

(** C5, on a [debounceTime] in the range 1 .. 2147483647 of the runtime's
    timer.  A burst of fact mutations, each less than [debounceTime] after
    the one before: each mutation cancels the pending timeout and arms a new
    one, so that after the first mutation, and after the whole burst,
    exactly one timeout is pending, the one the instance remembers, due
    [debounceTime] after the last mutation; while the burst lasts the
    debounce callback does not run, and however long one waits afterwards it
    runs at most once; if instead [determineState()] is called after the
    burst, the pending timeout is cancelled, and however long one waits the
    callback never runs for this burst. *)
Theorem debounce_coalesces_burst (w : World) (m : FactMutation)
    (evs : list (Z * FactMutation)) (T : Z) :
  timersOwned w →
  1 ≤ default 0 (debounceTime (config w)) ≤ 2147483647 →
  spaced (default 0 (debounceTime (config w))) (now w) evs →
  let burst := runBurst evs (applyMutation m w) in
  let explicit := (determineState burst).2 in
  timers (applyMutation m w)
  = [(nextTimer w, now w + default 0 (debounceTime (config w)))] ∧
  updateTimer (applyMutation m w) = Some (nextTimer w) ∧
  (∃ id, timers burst
         = [(id, lastTime (now w) evs + default 0 (debounceTime (config w)))] ∧
         updateTimer burst = Some id) ∧
  timerRuns burst = timerRuns w ∧
  (timerRuns (advance T burst) ≤ timerRuns w + 1)%nat ∧
  updateTimer explicit = None ∧ timers explicit = [] ∧
  timerRuns explicit = timerRuns w ∧
  timerRuns (advance T explicit) = timerRuns w.
Proof.
  intros Hown Hrange Hsp burst explicit.
  destruct (applyMutation_rearms m w Hown Hrange) as (Ht & Hu & Hn & Hc & Hr).
  destruct (runBurst_due evs (applyMutation m w) (nextTimer w))
    as (Hnow & Hruns & _ & id' & Ht' & Hu').
  { by rewrite Hc. }
  { by rewrite Hc, Hn. }
  { exact Hu. }
  { by rewrite Hc, Hn. }
  fold burst in Hnow, Hruns, Ht', Hu'. rewrite Hn in Hnow.
  rewrite Hc, Hnow in Ht'. rewrite Hr in Hruns.
  destruct (determineState_cancels burst id' _ Ht' Hu') as (Hte & Hue & Hre).
  fold explicit in Hte, Hue, Hre.
  split; [exact Ht|]. split; [exact Hu|].
  split; [by exists id'|].
  split; [exact Hruns|].
  split.
  { destruct (advance_single_exact T burst id' _ Ht') as [Hfire _].
    rewrite Hfire. case_decide; lia. }
  split; [exact Hue|]. split; [exact Hte|].
  split; [by rewrite Hre|].
  rewrite (advance_idle T explicit Hte). by rewrite Hre.
Qed.

Lemma debounce_coalesces_burst_witness :
  let w := worldOn netFlaky in
  let evs := [(1100, AddFact (Str "fact2")); (1300, RemoveFact (Str "fact2"));
              (1799, AddFacts [Str "a"; FactObj "b" None None])] in
  let burst := runBurst evs (applyMutation (AddFact (Str "fact1")) w) in
  timersOwned w ∧
  1 ≤ default 0 (debounceTime (config w)) ≤ 2147483647 ∧
  spaced (default 0 (debounceTime (config w))) (now w) evs ∧
  (∃ id, timers burst = [(id, 2299)] ∧ updateTimer burst = Some id) ∧
  (timerRuns (advance 5000 burst) ≤ timerRuns w + 1)%nat.
Proof.
  intros w evs burst.
  assert (Hown : timersOwned w) by constructor.
  assert (Hrange : 1 ≤ default 0 (debounceTime (config w)) ≤ 2147483647).
  { simpl. lia. }
  assert (Hsp : spaced (default 0 (debounceTime (config w))) (now w) evs).
  { simpl. lia. }
  split; [exact Hown|]. split; [exact Hrange|]. split; [exact Hsp|].
  destruct (debounce_coalesces_burst w (AddFact (Str "fact1")) evs 5000
              Hown Hrange Hsp) as (_ & _ & Hpending & _ & Hruns & _).
  split; [exact Hpending|exact Hruns].
Defined.

(** The bound is reached: once the burst is over and the delay has passed,
    the callback has run once, on the facts left by the whole burst; the
    transition is dated when the answer came, after the backoff of the two
    failed attempts. *)
Example debounce_fires_once_after_burst :
  let evs := [(1100, AddFact (Str "fact2")); (1300, RemoveFact (Str "fact2"))] in
  let w := advance 5000 (runBurst evs (addFact (Str "fact1") (worldOn netFlaky))) in
  timerRuns w = 1%nat ∧ llmCalls w = 1%nat ∧
  s_facts (snapshot (heap w) (getState w)) = ["fact1"] ∧
  s_currentState (snapshot (heap w) (getState w)) = Some "A" ∧
  s_transitions (snapshot (heap w) (getState w))
  = [ {| tr_from := None; tr_to := "A"; tr_timestamp := 4800;
         tr_facts := ["fact1"] |} ].
Proof. vm_compute. by repeat split. Qed.

(** ** C6: a second determination on the same facts is a cache hit *)

(** A valid cache entry for the facts is used, and the service is not
    called. *)
Lemma updateState_hit (w : World) (e : CacheEntry) :
  s_facts (snapshot (heap w) (value w)) ≠ [] →
  cache w !! generateCacheKey (s_facts (snapshot (heap w) (value w))) = Some e →
  isCacheValid (c_timestamp e) w = true →
  updateState w
  = (inr (Some (c_state e)), updateStateStore (c_state e) (c_confidence e) w).
Proof.
  intros Hf He Hv. unfold updateState.
  change (readFacts (heap w) (facts (readObj (heap w) (getState w))))
    with (s_facts (snapshot (heap w) (value w))).
  rewrite decide_False by (by destruct (s_facts _)).
  by rewrite He, Hv.
Qed.

(** A cycle that resolved after calling the service wrote the answer in the
    cache, under the key of the facts, at the time the call returned. *)
Lemma updateState_answered (w : World) (st : option string) (w1 : World) :
  updateState w = (inr st, w1) →
  llmCalls w1 = S (llmCalls w) →
  ∃ r : LLMStateResponse,
    st = Some (r_state r) ∧
    cache w1 = <[generateCacheKey (s_facts (snapshot (heap w) (value w))) :=
                   {| c_state := r_state r; c_confidence := r_confidence r;
                      c_timestamp := now w1 |}]> (cache w) ∧
    snapshot (heap w1) (value w1)
    = determined (r_state r) (r_confidence r) (now w1) (snapshot (heap w) (value w)) ∧
    now w ≤ now w1 ∧ config w1 = config w ∧ timers w1 = timers w ∧
    updateTimer w1 = updateTimer w.
Proof.
  intros E Hcalls. pose proof (updateState_Cycle w) as HC. rewrite E in HC.
  inversion HC as [Hf|e Hf He Hv|r Hf Hcall| ]; subst st w1;
    unfold getState in *.
  - lia.
  - change (llmCalls (updateStateStore ?a ?b w)) with (llmCalls w) in Hcalls.
    lia.
  - exists r. split; [done|].
    destruct (callService_frame (s_facts (snapshot (heap w) (value w))) w)
      as (Hh & Hv & Hn & Hc & Hcfg & Ht & Hu & _).
    change (readFacts (heap w) (facts (readObj (heap w) (value w))))
      with (s_facts (snapshot (heap w) (value w))).
    set (w0 := (callService (s_facts (snapshot (heap w) (value w))) w).2) in *.
    change (now (updateStateStore ?a ?b ?v)) with (now v).
    cbn [now set_cache].
    split; [by rewrite <- Hc|]. split.
    { rewrite snapshot_updateStateStore.
      cbn [now heap value set_cache]. by rewrite Hh, Hv. }
    by repeat split.
Qed.

(** When the instance owns the pending timeouts, [determineState()] leaves
    none, and runs the cycle on the same record, cache and clock. *)
Lemma determineState_updateState (w : World) :
  timersOwned w →
  ∃ w0, determineState w = updateState w0 ∧
        heap w0 = heap w ∧ value w0 = value w ∧ cache w0 = cache w ∧
        now w0 = now w ∧ config w0 = config w ∧ llmCalls w0 = llmCalls w ∧
        timers w0 = [] ∧ updateTimer w0 = None.
Proof.
  intros Hown. unfold determineState, timersOwned in *.
  destruct (updateTimer w) as [id|] eqn:Hu.
  - eexists. split; [reflexivity|]. repeat split. unfold clearTimeout.
    cbn [timers set_updateTimer set_timers].
    induction Hown as [|t ts Ht _ IH]; [done|].
    rewrite filter_cons_False; [exact IH|].
    intros Hne. apply Hne. by injection Ht.
  - exists w. repeat split; [|done]. by destruct Hown.
Qed.



(** ** C8: what [getState()] returns *)

(** C8 as stated fails: a caller that pushes onto the [facts] array
    of the record it was given changes the facts of the store, as the next
    [getState()] shows. *)
Lemma getState_is_not_a_copy :
  let w := worldOn netDown in
  let w' := callerMutates (getState w) (PushFact "x") w in
  s_facts (snapshot (heap w) (getState w)) = [] ∧
  s_facts (snapshot (heap w') (getState w')) = ["x"] ∧
  snapshot (heap w') (getState w') ≠ snapshot (heap w) (getState w).
Proof. vm_compute. by repeat split. Qed.

(** C8, amended. [getState()] returns the object the store holds, not a
    copy: the heap is as it was and the reference is the store's own, and a
    caller's assignment to the returned record, or push or truncation on its
    [facts] and [transitions] arrays, is what the store holds afterwards,
    as read by the next [getState()] and by the next determination. *)
Theorem getState_returns_the_stored_object (w : World) (m : Mutation) :
  allocated (heap w) (value w) →
  let r := getState w in
  let w' := callerMutates r m w in
  r = value w ∧
  getState w' = r ∧
  snapshot (heap w') (getState w') = mutated m (snapshot (heap w) r).
Proof.
  intros (Hr & Hf & Ht) r w'. subst r w'. unfold getState.
  split; [done|]. split; [done|].
  unfold callerMutates. cbn [heap value set_heap].
  unfold snapshot, view, mutated, readFacts, readTrans, readObj in *.
  destruct m; cbn [mutate objs factArrays transArrays s_currentState
    s_previousState s_facts s_confidence s_lastUpdated s_transitions s_error];
    unfold readObj, readFacts;
    rewrite ?list_lookup_total_insert_eq by done; done.
Qed.

Lemma getState_returns_the_stored_object_witness :
  let w := worldOn netDown in
  let w' := callerMutates (getState w) (PushFact "x") w in
  allocated (heap w) (value w) ∧
  s_facts (snapshot (heap w') (getState w')) = ["x"].
Proof.
  intros w w'.
  assert (Ha : allocated (heap w) (value w)) by (vm_compute; lia).
  split; [exact Ha|].
  destruct (getState_returns_the_stored_object w (PushFact "x") Ha)
    as (_ & _ & Hs).
  fold w' in Hs. rewrite Hs. reflexivity.
Defined.

(** The next determination runs on the facts the caller left in the array:
    it asks the service about them and caches the answer under their key. *)
Example determination_after_caller_push :
  let w := addFact (Str "fact1") (setLLMService stubX (worldOn netDown)) in
  let w' := callerMutates (getState w) (PushFact "zzz") w in
  let done := (determineState w').2 in
  s_facts (snapshot (heap done) (getState done)) = ["fact1"; "zzz"] ∧
  fst <$> map_to_list (cache done) = ["fact1|zzz"].
Proof. by vm_compute. Qed.

(** ** C9: what subscribers see of a mutation *)

(** One update of the store runs each callback once, with the updated
    state. *)
Lemma delivered_store_update fn (w : World) :
  let w' := store_update fn w in
  delivered w' = delivered w ++ deliveries (subscribers w) (snapshot (heap w') (value w')) ∧
  subscribers w' = subscribers w.
Proof. by split. Qed.

(** X22. The fact mutations, a determination result and [reset()] are each
    one update: every subscriber is called once, with the state the mutation
    leaves. *)
Lemma single_update_mutations_deliver_once (w : World) :
  (∀ m, let w' := applyMutation m w in
        delivered w' = delivered w ++
          deliveries (subscribers w) (snapshot (heap w') (value w'))) ∧
  (∀ st conf, let w' := updateStateStore st conf w in
        delivered w' = delivered w ++
          deliveries (subscribers w) (snapshot (heap w') (value w'))) ∧
  (let w' := reset w in
   delivered w' = delivered w ++
     deliveries (subscribers w) (snapshot (heap w') (value w'))).
Proof.
  split; [|split].
  - intros m w'. subst w'.
    destruct m; unfold applyMutation, addFact, addFacts, removeFact,
      scheduleStateUpdate;
      change (updateTimer (store_update ?f w)) with (updateTimer w);
      destruct (updateTimer w); reflexivity.
  - reflexivity.
  - reflexivity.
Qed.

(** [clearFacts()] is two updates: every subscriber is called twice, first
    with a state whose facts are gone and whose current state and confidence
    are still the old ones. *)
Lemma clearFacts_delivers_twice (w : World) :
  let s := snapshot (heap w) (getState w) in
  delivered (clearFacts w)
  = delivered w ++ deliveries (subscribers w) (setFacts [] s)
                ++ deliveries (subscribers w) (cleared (setFacts [] s)).
Proof.
  intros s. unfold clearFacts.
  set (w1 := store_update (withFacts []) w).
  destruct (delivered_store_update (withFacts []) w) as [Hd1 Hs1].
  fold w1 in Hd1, Hs1.
  assert (Hm : snapshot (heap w1) (value w1) = setFacts [] s).
  { subst w1 s. by_value. store_step. unfold setFacts. cbn. f_equal.
    by apply (list_lookup_total_middle _ [] []). }
  rewrite Hm in Hd1. clearbody w1.
  match goal with
  | |- delivered (store_update ?fn w1) = _ =>
      destruct (delivered_store_update fn w1) as [Hd2 _];
      rewrite Hd2, Hd1, Hs1, <- app_assoc; do 2 f_equal;
      unfold snapshot; rewrite readObj_store_update; cbn [fst snd];
      unfold snapshot in Hm; rewrite <- Hm
  end.
  reflexivity.
Qed.

(** C9, at the failing input: facts ["f1"; "f2"], current state "X", one
    subscriber.  During [clearFacts()] the subscriber is called with the
    facts already emptied and the current state still "X". *)
Theorem clearFacts_subscriber_sees_partial_clear :
  s_facts (snapshot (heap worldX) (getState worldX)) = ["f1"; "f2"] ∧
  s_currentState (snapshot (heap worldX) (getState worldX)) = Some "X" ∧
  ∃ s, (1%nat, s) ∈ delivered (clearFacts worldX) ∧
       s_facts s = [] ∧ s_currentState s = Some "X" ∧
       s_confidence s = (9 # 10)%Q.
Proof.
  split; [by vm_compute|]. split; [by vm_compute|].
  exists (setFacts [] (snapshot (heap worldX) (getState worldX))). split.
  - rewrite clearFacts_delivers_twice.
    replace (subscribers worldX) with [(0%nat, 1%nat)] by (by vm_compute).
    unfold deliveries. cbn [fmap list_fmap].
    apply elem_of_app. right. apply list_elem_of_here.
  - by vm_compute.
Qed.

(** ** Invariants of a run *)

(** The two assumptions made above, that the instance owns the pending
    timeouts and that the stored object and its arrays are allocated, hold
    of a new instance and are kept by every action. *)

Lemma timersOwned_same (w w' : World) :
  timers w' = timers w → updateTimer w' = updateTimer w →
  timersOwned w → timersOwned w'.
Proof. unfold timersOwned. by intros -> ->. Qed.

Lemma timersOwned_fire (x : positive * Z) (w : World) :
  timersOwned w → timersOwned (fire x w).
Proof.
  intros Hown. unfold fire. case_bool_decide; [|done].
  destruct (timerCallback_env
              (set_now (Z.max (now w) x.2) (clearTimeout x.1 w)))
    as (Ht & Hu & _).
  unfold timersOwned in *. rewrite Ht, Hu.
  cbn [timers updateTimer set_now clearTimeout set_timers].
  apply Forall_forall. intros y [_ Hy]%list_elem_of_filter.
  revert y Hy. by apply Forall_forall.
Qed.

Lemma timersOwned_advance (t : Z) (w : World) :
  timersOwned w → timersOwned (advance t w).
Proof.
  intros Hown. unfold advance.
  generalize (filter (λ x, x.2 ≤ t) (timers w)). intros due.
  apply (timersOwned_same (foldl (λ v x, fire x v) w due)); [done..|].
  revert w Hown. induction due as [|x due IH]; intros w Hown; [done|].
  simpl. by apply IH, timersOwned_fire.
Qed.

Lemma timersOwned_determineState (w : World) :
  timersOwned w → timersOwned (determineState w).2.
Proof.
  intros Hown.
  destruct (determineState_updateState w Hown) as (w0 & -> & _ & _ & _ & _ & _ & _ & Ht & _).
  destruct (updateState_env w0) as (Ht' & _).
  unfold timersOwned. rewrite Ht', Ht. constructor.
Qed.

Lemma timersOwned_perform (a : Action) (w : World) :
  timersOwned w → timersOwned (perform a w).
Proof.
  intros Hown. destruct a; simpl.
  - by apply (timersOwned_same w).
  - by apply (timersOwned_same w).
  - by apply (timersOwned_same w).
  - destruct (applyMutation_arms m w Hown) as (Ht & Hu & _).
    unfold timersOwned. rewrite Ht, Hu. by repeat constructor.
  - by apply (timersOwned_same w).
  - by apply timersOwned_determineState.
  - by apply (timersOwned_same w).
  - by apply timersOwned_advance.
  - by apply (timersOwned_same w).
Qed.

(** Every run of a new instance keeps the pending timeouts owned. *)
Lemma timersOwned_run (cfg : StateBotConfig) (t : Z) (n : nat → Client.Attempt)
    (l : nat → Z) (w0 : World) (acts : list Action) :
  constructor cfg t n l = inr w0 → timersOwned (run acts w0).
Proof.
  intros Hc.
  assert (H0 : timersOwned w0).
  { destruct (constructor_inr cfg t n l w0 Hc) as (_ & _ & _ & Ht & _).
    unfold timersOwned. rewrite Ht. constructor. }
  clear Hc. unfold run. revert w0 H0.
  induction acts as [|a acts IH]; intros w0 H0; [done|].
  simpl. by apply IH, timersOwned_perform.
Qed.

Lemma allocated_same (w w' : World) :
  heap w' = heap w → value w' = value w →
  allocated (heap w) (value w) → allocated (heap w') (value w').
Proof. by intros -> ->. Qed.

Lemma allocated_store_update fn (w : World) :
  (facts (fn (readObj (heap w) (value w)) (heap w)).1
   < length (factArrays (fn (readObj (heap w) (value w)) (heap w)).2))%nat →
  (transitions (fn (readObj (heap w) (value w)) (heap w)).1
   < length (transArrays (fn (readObj (heap w) (value w)) (heap w)).2))%nat →
  allocated (heap (store_update fn w)) (value (store_update fn w)).
Proof.
  intros Hf Ht. unfold allocated.
  rewrite readObj_store_update, factArrays_store_update,
    transArrays_store_update.
  split; [|done].
  unfold store_update.
  cbn [heap value store_set notify set_value set_heap set_delivered allocObj
       fst snd objs].
  rewrite length_app. simpl. lia.
Qed.

Lemma allocated_withFacts (l : list string) (w : World) :
  allocated (heap w) (value w) →
  allocated (heap (store_update (withFacts l) w))
            (value (store_update (withFacts l) w)).
Proof.
  intros (_ & _ & Ht). apply allocated_store_update; simpl; [|done].
  rewrite length_app. simpl. lia.
Qed.

Lemma allocated_withError (msg : string) (w : World) :
  allocated (heap w) (value w) →
  allocated (heap (store_update (withError msg) w))
            (value (store_update (withError msg) w)).
Proof. intros (_ & Hf & Ht). by apply allocated_store_update. Qed.

Lemma allocated_updateStateStore (st : string) (conf : Q) (w : World) :
  allocated (heap w) (value w) →
  allocated (heap (updateStateStore st conf w))
            (value (updateStateStore st conf w)).
Proof.
  intros (_ & Hf & Ht). unfold updateStateStore.
  apply allocated_store_update; case_bool_decide; simpl; try done.
  rewrite length_app. simpl. lia.
Qed.

Lemma allocated_updateState (w : World) :
  allocated (heap w) (value w) →
  allocated (heap (updateState w).2) (value (updateState w).2).
Proof.
  intros Ha. pose proof (updateState_Cycle w) as HC.
  destruct (updateState w) as [res w1]. cbn [snd].
  inversion HC as [Hf|e Hf He Hv|r Hf Hcall|msg Hf Hcall]; subst res w1.
  - done.
  - by apply allocated_updateStateStore.
  - apply allocated_updateStateStore. cbn [heap value set_cache].
    match goal with
    | |- context [callService ?fs w] =>
        destruct (callService_frame fs w) as (Hh & Hv & _)
    end.
    by rewrite Hh, Hv.
  - apply allocated_withError.
    match goal with
    | |- context [callService ?fs w] =>
        destruct (callService_frame fs w) as (Hh & Hv & _)
    end.
    by rewrite Hh, Hv.
Qed.

Lemma allocated_timerCallback (w : World) :
  allocated (heap w) (value w) →
  allocated (heap (timerCallback w)) (value (timerCallback w)).
Proof.
  intros Ha. unfold timerCallback.
  pose proof (allocated_updateState w Ha) as Hu.
  destruct (updateState w) as [[msg|st] w1]; cbn [snd] in Hu.
  - by apply (allocated_withError msg).
  - done.
Qed.

Lemma allocated_advance (t : Z) (w : World) :
  allocated (heap w) (value w) →
  allocated (heap (advance t w)) (value (advance t w)).
Proof.
  intros Ha. unfold advance.
  generalize (filter (λ x, x.2 ≤ t) (timers w)). intros due.
  cbn [heap value set_now].
  revert w Ha. induction due as [|x due IH]; intros w Ha; [done|].
  simpl. apply IH. unfold fire. case_bool_decide; [|done].
  by apply allocated_timerCallback.
Qed.

Lemma allocated_mutate (m : Mutation) (h : Heap) (r : ref) :
  allocated h r → allocated (mutate r m h) r.
Proof.
  intros (Hr & Hf & Ht). unfold allocated, readObj in *.
  destruct m; cbn [mutate objs factArrays transArrays];
    rewrite ?length_insert, ?list_lookup_total_insert_eq by done; done.
Qed.

Lemma scheduleStateUpdate_heap (w : World) :
  heap (scheduleStateUpdate w) = heap w ∧
  value (scheduleStateUpdate w) = value w.
Proof. unfold scheduleStateUpdate. by destruct (updateTimer w). Qed.

Lemma allocated_perform (a : Action) (w : World) :
  allocated (heap w) (value w) →
  allocated (heap (perform a w)) (value (perform a w)).
Proof.
  intros Ha. destruct a; cbn [perform]; try done.
  - destruct Ha as (_ & _ & Ht).
    destruct m; unfold applyMutation, addFact, addFacts, removeFact;
      match goal with
      | |- context [scheduleStateUpdate ?v] =>
          destruct (scheduleStateUpdate_heap v) as [-> ->]
      end;
      (apply allocated_store_update; simpl; [|done]);
      rewrite length_app; simpl; lia.
  - unfold clearFacts.
    pose proof (allocated_withFacts [] w Ha) as (_ & Hf & Ht).
    by apply allocated_store_update.
  - unfold determineState.
    destruct (updateTimer w); by apply allocated_updateState.
  - unfold allocated, readObj, reset. simpl.
    rewrite !length_app. simpl.
    rewrite (list_lookup_total_middle (objs (heap w)) []) by done. simpl. lia.
  - by apply allocated_advance.
  - by apply allocated_mutate.
Qed.

(** Every run of a new instance keeps the stored object allocated. *)
Lemma allocated_run (cfg : StateBotConfig) (t : Z) (n : nat → Client.Attempt)
    (l : nat → Z) (w0 : World) (acts : list Action) :
  constructor cfg t n l = inr w0 →
  allocated (heap (run acts w0)) (value (run acts w0)).
Proof.
  intros Hc.
  assert (H0 : allocated (heap w0) (value w0)).
  { revert Hc. unfold constructor.
    destruct (createLLMService (defaultedConfig cfg)); [done|].
    intros [= <-]. unfold allocated, readObj. simpl. lia. }
  clear Hc. unfold run. revert w0 H0.
  induction acts as [|a acts IH]; intros w0 H0; [done|].
  simpl. by apply IH, allocated_perform.
Qed.

(** * More of the store *)

(** ** The fact list *)

Lemma snapshot_scheduleStateUpdate (w : World) :
  snapshot (heap (scheduleStateUpdate w)) (value (scheduleStateUpdate w))
  = snapshot (heap w) (value w).
Proof. by destruct (scheduleStateUpdate_heap w) as [-> ->]. Qed.

Lemma snapshot_withFacts (f : list string → list string) (w : World) :
  let w' := store_update
              (λ state h, withFacts (f (readFacts h (facts state))) state h) w in
  snapshot (heap w') (value w')
  = setFacts (f (s_facts (snapshot (heap w) (value w)))) (snapshot (heap w) (value w)).
Proof.
  intros w'. subst w'. by_value. store_step. unfold setFacts.
  cbn [s_currentState s_previousState s_facts s_confidence s_lastUpdated
       s_transitions s_error]. f_equal.
  by apply (list_lookup_total_middle _ []).
Qed.

(** What a fact mutation does to the list of facts. *)
Lemma snapshot_applyMutation (m : FactMutation) (w : World) :
  snapshot (heap (applyMutation m w)) (value (applyMutation m w))
  = setFacts
      (match m with
       | AddFact fact => s_facts (snapshot (heap w) (value w)) ++ [factContent fact]
       | AddFacts fs => s_facts (snapshot (heap w) (value w)) ++ (factContent <$> fs)
       | RemoveFact fact =>
           filter (λ f, f ≠ factContent fact) (s_facts (snapshot (heap w) (value w)))
       end)
      (snapshot (heap w) (value w)).
Proof.
  destruct m; unfold applyMutation, addFact, addFacts, removeFact;
    rewrite snapshot_scheduleStateUpdate.
  - apply (snapshot_withFacts (λ l, l ++ [factContent fact])).
  - apply (snapshot_withFacts (λ l, l ++ (factContent <$> fs))).
  - apply (snapshot_withFacts (filter (λ f, f ≠ factContent fact))).
Qed.

(** With no facts the cycle does nothing. *)
Lemma updateState_no_facts (w : World) :
  s_facts (snapshot (heap w) (value w)) = [] →
  updateState w = (inr (s_currentState (snapshot (heap w) (value w))), w).
Proof.
  intros Hf. unfold updateState.
  change (readFacts (heap w) (facts (readObj (heap w) (getState w))))
    with (s_facts (snapshot (heap w) (value w))).
  by rewrite Hf.
Qed.

(** Two worlds that differ in the clock, the timers and the count of timer
    runs at most. *)
Lemma fire_no_facts (x : positive * Z) (w : World) :
  s_facts (snapshot (heap w) (value w)) = [] →
  let w' := fire x w in
  heap w' = heap w ∧ value w' = value w ∧ cache w' = cache w ∧
  llmCalls w' = llmCalls w ∧ fetches w' = fetches w ∧
  delivered w' = delivered w ∧ subscribers w' = subscribers w.
Proof.
  intros Hf w'. subst w'. unfold fire. case_bool_decide; [|done].
  unfold timerCallback.
  rewrite (updateState_no_facts
             (set_now (Z.max (now w) x.2) (clearTimeout x.1 w))) by exact Hf.
  done.
Qed.

Lemma advance_no_facts (t : Z) (w : World) :
  s_facts (snapshot (heap w) (value w)) = [] →
  let w' := advance t w in
  heap w' = heap w ∧ value w' = value w ∧ cache w' = cache w ∧
  llmCalls w' = llmCalls w ∧ fetches w' = fetches w ∧
  delivered w' = delivered w ∧ subscribers w' = subscribers w.
Proof.
  intros Hf w'. subst w'. unfold advance.
  generalize (filter (λ x, x.2 ≤ t) (timers w)). intros due.
  cbn [heap value cache llmCalls fetches delivered subscribers set_now].
  revert w Hf. induction due as [|x due IH]; intros w Hf; [done|].
  cbn [foldl].
  destruct (fire_no_facts x w Hf) as (Hh & Hv & Hc & Hl & Hfe & Hd & Hs).
  rewrite <- Hh, <- Hv, <- Hc, <- Hl, <- Hfe, <- Hd, <- Hs.
  apply IH. by rewrite Hh, Hv.
Qed.

Lemma filter_all {A} (P : A → Prop) `{!∀ x, Decision (P x)} (l : list A) :
  (∀ x, x ∈ l → P x) → filter P l = l.
Proof.
  induction l as [|x l IH]; intros Hall; [done|].
  rewrite filter_cons_True by (apply Hall; by left).
  f_equal. apply IH. intros y Hy. apply Hall. by right.
Qed.

(** X1. [addFacts(facts)] appends the contents of the facts to the list, in
    order and with their duplicates, and changes no other field of the
    record; [addFact(fact)] appends the one content; adding the facts one by
    one with [addFact] leaves the same record as [addFacts]; neither calls
    the service. *)
Theorem addFacts_appends_in_order (fs : list FactArg) (w : World) :
  let s := snapshot (heap w) (getState w) in
  let w' := addFacts fs w in
  let one_by_one := foldl (λ v fact, addFact fact v) w fs in
  snapshot (heap w') (getState w')
  = setFacts (s_facts s ++ (factContent <$> fs)) s ∧
  (∀ fact, snapshot (heap (addFact fact w)) (getState (addFact fact w))
           = setFacts (s_facts s ++ [factContent fact]) s) ∧
  s_facts (snapshot (heap one_by_one) (getState one_by_one))
  = s_facts (snapshot (heap w') (getState w')) ∧
  setFacts [] (snapshot (heap one_by_one) (getState one_by_one))
  = setFacts [] (snapshot (heap w') (getState w')) ∧
  llmCalls w' = llmCalls w ∧ fetches w' = fetches w ∧ cache w' = cache w.
Proof.
  intros s w' one_by_one. subst s w' one_by_one. unfold getState.
  pose proof (snapshot_applyMutation (AddFacts fs) w) as Hall.
  cbn [applyMutation] in Hall.
  split; [exact Hall|].
  split; [intros fact; exact (snapshot_applyMutation (AddFact fact) w)|].
  assert (Hfold : ∀ l v,
    snapshot (heap (foldl (λ v fact, addFact fact v) v l))
             (value (foldl (λ v fact, addFact fact v) v l))
    = setFacts (s_facts (snapshot (heap v) (value v)) ++ (factContent <$> l))
               (snapshot (heap v) (value v))).
  { induction l as [|fact l IH]; intros v; cbn [foldl fmap list_fmap].
    - rewrite app_nil_r. by destruct (snapshot (heap v) (value v)).
    - rewrite IH.
      pose proof (snapshot_applyMutation (AddFact fact) v) as H1.
      cbn [applyMutation] in H1. rewrite H1. unfold setFacts.
      cbn [s_currentState s_previousState s_facts s_confidence s_lastUpdated
           s_transitions s_error].
      by rewrite <- app_assoc. }
  rewrite Hfold, Hall. split; [done|]. split; [done|].
  unfold addFacts, scheduleStateUpdate.
  change (updateTimer (store_update ?f w)) with (updateTimer w).
  by destruct (updateTimer w).
Qed.

(** X2. [removeFact(fact)] removes every occurrence of the content of the
    fact and keeps the other facts, in their order; afterwards the content
    is not among the facts; removing a fact that is absent leaves the list
    as it is, and so does removing it a second time; no other field of the
    record changes, but the subscribers are notified and the timer is armed
    even when nothing was removed. *)
Theorem removeFact_removes_all (fact : FactArg) (w : World) :
  let s := snapshot (heap w) (getState w) in
  let w' := removeFact fact w in
  let s' := snapshot (heap w') (getState w') in
  s' = setFacts (filter (λ f, f ≠ factContent fact) (s_facts s)) s ∧
  (factContent fact ∉ s_facts s') ∧
  (∀ f, f ≠ factContent fact →
        filter (λ x, x = f) (s_facts s') = filter (λ x, x = f) (s_facts s)) ∧
  (factContent fact ∉ s_facts s → s_facts s' = s_facts s) ∧
  snapshot (heap (removeFact fact w')) (getState (removeFact fact w')) = s' ∧
  delivered w' = delivered w ++ deliveries (subscribers w) s' ∧
  (∃ id, updateTimer w' = Some id ∧ id ∈ (fst <$> timers w')).
Proof.
  intros s w' s'.
  assert (Hs' : s' = setFacts (filter (λ f, f ≠ factContent fact) (s_facts s)) s).
  { subst s s' w'. unfold getState.
    exact (snapshot_applyMutation (RemoveFact fact) w). }
  split; [exact Hs'|].
  assert (Hf : s_facts s' = filter (λ f, f ≠ factContent fact) (s_facts s))
    by (by rewrite Hs').
  assert (Hgone : factContent fact ∉ s_facts s').
  { rewrite Hf. intros Hin. apply list_elem_of_filter in Hin as [Hne _].
    by apply Hne. }
  split; [exact Hgone|].
  split.
  { intros f Hne. rewrite Hf, list_filter_filter.
    apply list_filter_iff. intros x. split; [by intros [Hx _]|by intros ->]. }
  split.
  { intros Hnot. rewrite Hf. apply filter_all. by intros x Hx ->. }
  split.
  { pose proof (snapshot_applyMutation (RemoveFact fact) w') as H2.
    cbn [applyMutation] in H2. unfold getState. subst s'.
    unfold getState in *. rewrite H2.
    rewrite filter_all by (by intros x Hx ->).
    by destruct (snapshot (heap w') (value w')). }
  split.
  { subst s' w'. unfold removeFact, scheduleStateUpdate, getState.
    change (updateTimer (store_update ?f w)) with (updateTimer w).
    destruct (updateTimer w); reflexivity. }
  subst w'. unfold removeFact, scheduleStateUpdate.
  change (updateTimer (store_update ?f w)) with (updateTimer w).
  destruct (updateTimer w); eexists; (split; [reflexivity|]);
    cbn [timers set_updateTimer setTimeout set_nextTimer set_timers fst snd];
    rewrite fmap_app; apply elem_of_app; right; by left.
Qed.

(** ** [reset()], [clearFacts()] and a timeout that is still pending *)

Lemma snapshot_reset (w : World) :
  snapshot (heap (reset w)) (value (reset w)) = initialState (now w).
Proof.
  unfold reset, initialState. by_value. unfold readObj.
  cbn [heap value set_cache store_set notify set_value set_heap set_delivered
       allocObj allocTrans allocFacts fst snd objs factArrays transArrays].
  rewrite (list_lookup_total_middle (objs (heap w)) []) by done.
  cbn [currentState previousState facts confidence lastUpdated transitions
       error].
  rewrite (list_lookup_total_middle (factArrays (heap w)) []) by done.
  by rewrite (list_lookup_total_middle (transArrays (heap w)) []) by done.
Qed.

Lemma snapshot_clearFacts (w : World) :
  snapshot (heap (clearFacts w)) (value (clearFacts w))
  = cleared (setFacts [] (snapshot (heap w) (value w))).
Proof.
  unfold clearFacts, cleared, setFacts. by_value. do 2 store_step.
  cbn [s_currentState s_previousState s_facts s_confidence s_lastUpdated
       s_transitions s_error]. f_equal.
  by apply (list_lookup_total_middle _ [] []).
Qed.

(** X3. [reset()] puts back the record of a new instance, dated now, and
    empties the cache; it keeps the subscribers, who are each told once, the
    service and the configuration; it does not cancel a pending timeout, and
    when that timeout fires later the cycle finds no facts: the record stays
    as reset and the service is not called. *)
Theorem reset_restores_initial_state (w : World) (T : Z) :
  let w' := reset w in
  let later := advance T w' in
  snapshot (heap w') (getState w') = initialState (now w) ∧
  cache w' = ∅ ∧
  subscribers w' = subscribers w ∧
  delivered w' = delivered w ++ deliveries (subscribers w) (initialState (now w)) ∧
  llmService w' = llmService w ∧ config w' = config w ∧
  timers w' = timers w ∧ updateTimer w' = updateTimer w ∧
  snapshot (heap later) (getState later) = initialState (now w) ∧
  cache later = ∅ ∧
  llmCalls later = llmCalls w ∧ fetches later = fetches w.
Proof.
  intros w' later. subst w' later. unfold getState.
  pose proof (snapshot_reset w) as Hs.
  destruct (advance_no_facts T (reset w)) as (Hh & Hv & Hc & Hl & Hf & _).
  { by rewrite Hs. }
  rewrite Hh, Hv, Hc, Hl, Hf, Hs.
  repeat split.
  change (delivered (reset w))
    with (delivered w ++
          deliveries (subscribers w) (snapshot (heap (reset w)) (value (reset w)))).
  by rewrite Hs.
Qed.

(** X4. [determineState()] on an empty list of facts resolves with the
    current state, which may be [null]; it cancels the remembered timeout
    and does nothing else: the record, the cache and the heap are as before,
    no subscriber is told and the service is not called. *)
Theorem determineState_without_facts (w : World) :
  s_facts (snapshot (heap w) (getState w)) = [] →
  let result := determineState w in
  result.1 = inr (s_currentState (snapshot (heap w) (getState w))) ∧
  heap result.2 = heap w ∧ value result.2 = value w ∧
  cache result.2 = cache w ∧ delivered result.2 = delivered w ∧
  llmCalls result.2 = llmCalls w ∧ fetches result.2 = fetches w ∧
  updateTimer result.2 = None ∧
  (∀ id, updateTimer w = Some id → id ∉ (fst <$> timers result.2)).
Proof.
  intros Hf result. subst result. unfold determineState, getState in *.
  destruct (updateTimer w) as [id|] eqn:Hu.
  - rewrite (updateState_no_facts (set_updateTimer None (clearTimeout id w)))
      by exact Hf.
    cbn [fst snd]. repeat split.
    intros id' [= <-]. cbn [timers set_updateTimer clearTimeout set_timers].
    intros (x & Hx & [Hne _]%list_elem_of_filter)%list_elem_of_fmap.
    by apply Hne.
  - rewrite (updateState_no_facts w) by exact Hf. cbn [fst snd].
    by repeat split.
Qed.

Lemma determineState_without_facts_witness :
  s_facts (snapshot (heap (worldOn netDown)) (getState (worldOn netDown))) = [] ∧
  (determineState (worldOn netDown)).1 = inr None ∧
  llmCalls (determineState (worldOn netDown)).2 = llmCalls (worldOn netDown).
Proof.
  assert (Hf : s_facts (snapshot (heap (worldOn netDown))
                          (getState (worldOn netDown))) = []) by reflexivity.
  split; [exact Hf|].
  destruct (determineState_without_facts (worldOn netDown) Hf)
    as (Hres & _ & _ & _ & _ & Hcalls & _).
  split; [exact Hres|exact Hcalls].
Defined.

(** X6. [clearFacts()] does not cancel a pending timeout either, and it
    keeps [error] and [lastUpdated]; when the timeout fires later the cycle
    finds no facts: whatever the time waited, the record stays cleared, the
    cache is as it was and the service is not called. *)
Theorem clearFacts_then_pending_timeout (w : World) (T : Z) :
  let s := snapshot (heap w) (getState w) in
  let w' := clearFacts w in
  let later := advance T w' in
  s_error (snapshot (heap w') (getState w')) = s_error s ∧
  s_lastUpdated (snapshot (heap w') (getState w')) = s_lastUpdated s ∧
  snapshot (heap later) (getState later) = snapshot (heap w') (getState w') ∧
  s_currentState (snapshot (heap later) (getState later)) = None ∧
  s_facts (snapshot (heap later) (getState later)) = [] ∧
  cache later = cache w ∧ llmCalls later = llmCalls w ∧
  fetches later = fetches w.
Proof.
  intros s w' later. subst s w' later. unfold getState.
  pose proof (snapshot_clearFacts w) as Hs.
  destruct (advance_no_facts T (clearFacts w)) as (Hh & Hv & Hc & Hl & Hf & _).
  { by rewrite Hs. }
  rewrite Hh, Hv, Hc, Hl, Hf, Hs. by repeat split.
Qed.

(** ** The cache and the cost of a cycle *)

(** Without a valid entry the cycle calls the service. *)
Lemma updateState_miss (w : World) :
  s_facts (snapshot (heap w) (value w)) ≠ [] →
  (∀ e, cache w !! generateCacheKey (s_facts (snapshot (heap w) (value w))) = Some e →
        isCacheValid (c_timestamp e) w = false) →
  updateState w =
    match callService (s_facts (snapshot (heap w) (value w))) w with
    | (inr r, w1) =>
        (inr (Some (r_state r)),
         updateStateStore (r_state r) (r_confidence r)
           (set_cache
              (<[generateCacheKey (s_facts (snapshot (heap w) (value w))) :=
                   {| c_state := r_state r; c_confidence := r_confidence r;
                      c_timestamp := now w1 |}]> (cache w1)) w1))
    | (inl msg, w1) => (inl msg, store_update (withError msg) w1)
    end.
Proof.
  intros Hf Hinvalid. unfold updateState.
  change (readFacts (heap w) (facts (readObj (heap w) (getState w))))
    with (s_facts (snapshot (heap w) (value w))).
  rewrite decide_False by (by destruct (s_facts _)).
  destruct (cache w !! _) as [e|] eqn:He; [|done].
  by rewrite (Hinvalid e eq_refl).
Qed.

(** X5. A cycle on facts whose cache entry is absent or has reached the age
    [cacheExpiry] calls the service, once, and goes on when the call
    returns: by then the clock has moved by the backoff the client slept and
    by what it waited for its answers.  An answer is applied as it is,
    whatever the state it names and whatever its confidence (nothing compares
    them with [config.states] or [determinationThreshold]), and it replaces
    the entry; the entry, [lastUpdated] and the transition are stamped with
    the time at which the call returned, not with the time at which the
    cycle began.  When the service throws, the cache is left as it was, the
    expired entry included. *)
Theorem miss_calls_service_and_overwrites (w : World) (expiry : Z) :
  let s := snapshot (heap w) (getState w) in
  let key := generateCacheKey (s_facts s) in
  s_facts s ≠ [] →
  cacheExpiry (config w) = Some expiry →
  (∀ e, cache w !! key = Some e → expiry ≤ now w - c_timestamp e) →
  let result := updateState w in
  let returned := now (callService (s_facts s) w).2 in
  llmCalls result.2 = S (llmCalls w) ∧
  now result.2 = returned ∧
  now w ≤ returned ∧
  returned
  = now w +
    callTime
      match llmService w with
      | Provided p _ retries =>
          Client.delays (Client.determineState p retries (net w) (fetches w))
      | Custom _ => []
      end w ∧
  match (callService (s_facts s) w).1 with
  | inr r =>
      result.1 = inr (Some (r_state r)) ∧
      snapshot (heap result.2) (getState result.2)
      = determined (r_state r) (r_confidence r) returned s ∧
      cache result.2
      = <[key := {| c_state := r_state r; c_confidence := r_confidence r;
                    c_timestamp := returned |}]> (cache w)
  | inl msg =>
      result.1 = inl msg ∧ cache result.2 = cache w
  end.
Proof.
  intros s key Hf Hexp Hold result returned.
  subst s key result returned. unfold getState in *.
  rewrite updateState_miss; [|exact Hf|].
  2:{ intros e He. unfold isCacheValid. rewrite Hexp.
      apply bool_decide_eq_false_2. specialize (Hold e He). lia. }
  assert (Hreturned :
    now (callService (s_facts (snapshot (heap w) (value w))) w).2
    = now w +
      callTime
        match llmService w with
        | Provided p _ retries =>
            Client.delays (Client.determineState p retries (net w) (fetches w))
        | Custom _ => []
        end w).
  { unfold callService. by destruct (llmService w). }
  destruct (callService_frame (s_facts (snapshot (heap w) (value w))) w)
    as (Hh & Hv & Hn & Hc & _ & _ & _ & _ & _ & _ & _ & Hl).
  destruct (callService (s_facts (snapshot (heap w) (value w))) w)
    as [[msg|r] w1]; cbn [fst snd] in *.
  - split; [exact Hl|]. split; [done|]. split; [exact Hn|].
    split; [exact Hreturned|]. split; [done|exact Hc].
  - split; [exact Hl|]. split; [done|]. split; [exact Hn|].
    split; [exact Hreturned|]. split; [done|]. split.
    + rewrite snapshot_updateStateStore.
      cbn [now heap value set_cache]. by rewrite Hh, Hv.
    + change (cache (updateStateStore ?a ?b ?v)) with (cache v).
      cbn [cache set_cache]. by rewrite Hc.
Qed.

Lemma miss_calls_service_and_overwrites_witness :
  let w0 := (determineState
               (addFact (Str "fact1")
                  (set_latency (λ _, 40) (worldOn netFlaky)))).2 in
  let w := advance 304040 w0 in
  c_timestamp <$> (cache w !! "fact1") = Some 4040 ∧
  llmCalls w = 1%nat ∧
  llmCalls (updateState w).2 = 2%nat ∧
  now (updateState w).2 = 304080.
Proof.
  intros w0 w.
  split; [by vm_compute|]. split; [by vm_compute|].
  destruct (miss_calls_service_and_overwrites w 300000)
    as (Hcalls & Hnow & _ & Hreturned & _).
  - by vm_compute.
  - reflexivity.
  - intros e He. vm_compute in He. injection He as <-. by vm_compute.
  - split; [exact Hcalls|]. rewrite Hnow, Hreturned. by vm_compute.
Defined.

(** The entry is dated when the call returned.  A cycle begun at 1000 whose
    call sleeps 3000 of backoff writes its entry at 4000: at 301000 the
    entry is 297000 old and still valid, so that a cycle is a cache hit; at
    304000 it has reached [cacheExpiry] and a cycle calls the service. *)
Example cache_entry_dated_when_the_call_returned :
  let w0 := (determineState (addFact (Str "fact1") (worldOn netFlaky))).2 in
  c_timestamp <$> (cache w0 !! "fact1") = Some 4000 ∧
  llmCalls w0 = 1%nat ∧
  llmCalls (updateState (advance 301000 w0)).2 = 1%nat ∧
  llmCalls (updateState (advance 304000 w0)).2 = 2%nat.
Proof. vm_compute. by repeat split. Qed.

(** X7. A determination cycle calls the service at most once, and a client
    built by the constructor calls [fetch] at most [retryCount] times in it;
    a cycle that does not call the service does not call [fetch]. *)
Theorem cycle_cost_bounded (w : World) :
  let w' := (updateState w).2 in
  (llmCalls w ≤ llmCalls w' ≤ S (llmCalls w))%nat ∧
  (llmCalls w' = llmCalls w → fetches w' = fetches w) ∧
  match llmService w with
  | Provided _ _ retries =>
      (fetches w ≤ fetches w' ≤ fetches w + Z.to_nat retries)%nat
  | Custom _ => fetches w' = fetches w
  end.
Proof.
  intros w'. subst w'.
  assert (Hcall : ∀ fs,
    llmCalls (callService fs w).2 = S (llmCalls w) ∧
    match llmService w with
    | Provided _ _ retries =>
        (fetches w ≤ fetches (callService fs w).2
         ≤ fetches w + Z.to_nat retries)%nat
    | Custom _ => fetches (callService fs w).2 = fetches w
    end).
  { intros fs. unfold callService.
    destruct (llmService w) as [p key retries|f]; cbn [snd llmCalls fetches
      set_fetches set_llmCalls set_now]; [|done].
    split; [done|]. unfold Client.determineState.
    destruct (retryLoop_attempts_delays p (net w) (fetches w)
                (Z.to_nat retries) 0%nat None []) as (Hrange & _).
    lia. }
  pose proof (updateState_Cycle w) as HC.
  destruct (updateState w) as [res w1]. cbn [snd].
  inversion HC as [Hf|e Hf He Hv|r Hf Hcall'|msg Hf Hcall']; subst res w1.
  - split; [lia|]. split; [done|]. destruct (llmService w); [lia|done].
  - change (llmCalls (updateStateStore ?a ?b w)) with (llmCalls w).
    change (fetches (updateStateStore ?a ?b w)) with (fetches w).
    split; [lia|]. split; [done|]. destruct (llmService w); [lia|done].
  - match goal with
    | |- context [callService ?fs w] => destruct (Hcall fs) as [Hl Hfe]
    end.
    change (llmCalls (updateStateStore ?a ?b (set_cache ?c ?v))) with (llmCalls v).
    change (fetches (updateStateStore ?a ?b (set_cache ?c ?v))) with (fetches v).
    rewrite Hl. split; [lia|]. split; [lia|exact Hfe].
  - match goal with
    | |- context [callService ?fs w] => destruct (Hcall fs) as [Hl Hfe]
    end.
    change (llmCalls (store_update ?f ?v)) with (llmCalls v).
    change (fetches (store_update ?f ?v)) with (fetches v).
    rewrite Hl. split; [lia|]. split; [lia|exact Hfe].
Qed.

(** ** The constructor and the clients *)

(** X8. The constructor fails exactly when the provider is none of
    "claude", "gemini" and "chatgpt", with the message "Unsupported LLM
    provider: " followed by the provider; otherwise it builds the client of
    that provider with the API key and the defaulted retry count, around the
    record of a new instance, with no subscriber, an empty cache and no
    timeout. *)
Theorem constructor_checks_provider (cfg : StateBotConfig) (t : Z)
    (n : nat → Client.Attempt) (l : nat → Z) :
  match constructor cfg t n l with
  | inl msg =>
      (provider cfg ∉ ["claude"; "gemini"; "chatgpt"]) ∧
      msg = "Unsupported LLM provider: " +:+ provider cfg
  | inr w =>
      (∃ p, llmService w = Provided p (apiKey cfg) (orZ (retryCount cfg) 3) ∧
            provider cfg = match p with
                           | Client.Claude => "claude"
                           | Client.Gemini => "gemini"
                           | Client.ChatGPT => "chatgpt"
                           end) ∧
      snapshot (heap w) (getState w) = initialState t ∧
      subscribers w = [] ∧ cache w = ∅ ∧ timers w = [] ∧ updateTimer w = None
  end.
Proof.
  unfold constructor, createLLMService.
  cbn [defaultedConfig provider apiKey retryCount default].
  repeat case_decide.
  - split; [|done]. by exists Client.Claude.
  - split; [|done]. by exists Client.Gemini.
  - split; [|done]. by exists Client.ChatGPT.
  - split; [|done]. rewrite !elem_of_cons, elem_of_nil.
    by intros [?|[?|[?|[]]]].
Qed.

(** X9. A client whose retry count is zero or negative calls [fetch] not
    once and throws "Failed to determine state with X API"; the constructor
    replaces 0 by 3 but lets a negative [retryCount] through, and then every
    call of the service fails in this way. *)
Theorem client_without_attempts (p : Client.Provider) (retries : Z)
    (net : nat → Client.Attempt) (base : nat) :
  retries ≤ 0 →
  Client.determineState p retries net base
  = {| Client.result :=
         inl ("Failed to determine state with " +:+ Client.apiName p +:+ " API");
       Client.attempts := 0; Client.delays := [] |} ∧
  (∀ cfg t l w fs,
     constructor cfg t net l = inr w → retryCount cfg = Some retries →
     retries < 0 →
     (∃ p', (callService fs w).1
            = inl ("Failed to determine state with " +:+ Client.apiName p' +:+ " API")) ∧
     fetches (callService fs w).2 = fetches w).
Proof.
  intros Hle.
  assert (Hrun : ∀ p' b, Client.determineState p' retries net b
    = {| Client.result :=
           inl ("Failed to determine state with " +:+ Client.apiName p' +:+ " API");
         Client.attempts := 0; Client.delays := [] |}).
  { intros p' b. unfold Client.determineState.
    by replace (Z.to_nat retries) with 0%nat by lia. }
  split; [apply Hrun|].
  intros cfg t l w fs Hc Hcfg Hneg.
  destruct (constructor_inr cfg t net l w Hc) as (_ & Hsvc & _ & _ & _ & _ & Hnet & _).
  assert (Hp : ∃ p', llmService w = Provided p' (apiKey cfg) retries).
  { revert Hsvc. unfold createLLMService.
    cbn [defaultedConfig provider apiKey retryCount default orZ].
    rewrite Hcfg. cbn [orZ]. rewrite (decide_False (P := retries = 0)) by lia.
    repeat case_decide; intros [= <-]; by eexists. }
  destruct Hp as [p' Hp]. unfold callService. rewrite Hp, Hnet, Hrun.
  cbn [fst snd Client.result Client.attempts fetches set_fetches set_llmCalls
       set_now].
  split; [by exists p'|lia].
Qed.

Lemma client_without_attempts_witness :
  -1 ≤ 0 ∧
  Client.attempts (Client.determineState Client.Claude (-1) netFlaky 0) = 0%nat.
Proof.
  split; [lia|].
  destruct (client_without_attempts Client.Claude (-1) netFlaky 0) as [Hrun _].
  - lia.
  - by rewrite Hrun.
Defined.

Lemma total_app (l1 l2 : list Z) : total (l1 ++ l2) = total l1 + total l2.
Proof. induction l1 as [|x l1 IH]; simpl; [done|]. rewrite IH. lia. Qed.

Lemma total_backoff (k : nat) :
  total (Client.backoff k) = 1000 * (2 ^ Z.of_nat k - 1).
Proof.
  unfold Client.backoff. induction k as [|k IH]; [done|].
  rewrite seq_S, fmap_app, total_app, IH. cbn [fmap list_fmap total foldr].
  replace (Z.of_nat (1 + k)) with (Z.succ (Z.of_nat k)) by lia.
  replace (Z.of_nat (S k)) with (Z.succ (Z.of_nat k)) by lia.
  rewrite Z.pow_succ_r by lia. lia.
Qed.


(** ** The debounce timer *)

(** X11. Trailing-edge debounce, on a [debounceTime] in the range
    1 .. 2147483647 of the runtime's timer.  After a burst of fact
    mutations, each less than [debounceTime] after the one before, the
    debounce callback runs when the clock reaches the time of the last
    mutation plus the delay, not before, and once; after it has run no
    timeout is pending. *)
Theorem debounce_fires_after_quiet_period (w : World) (m : FactMutation)
    (evs : list (Z * FactMutation)) (T : Z) :
  timersOwned w →
  1 ≤ default 0 (debounceTime (config w)) ≤ 2147483647 →
  spaced (default 0 (debounceTime (config w))) (now w) evs →
  let burst := runBurst evs (applyMutation m w) in
  let due := lastTime (now w) evs + default 0 (debounceTime (config w)) in
  now burst = lastTime (now w) evs ∧
  timerRuns (advance T burst)
  = (if decide (due ≤ T) then S (timerRuns w) else timerRuns w) ∧
  (due ≤ T → timers (advance T burst) = []) ∧
  (T < due → length (timers (advance T burst)) = 1%nat).
Proof.
  intros Hown Hrange Hsp burst due.
  destruct (applyMutation_rearms m w Hown Hrange) as (Ht & Hu & Hn & Hc & Hr).
  destruct (runBurst_due evs (applyMutation m w) (nextTimer w))
    as (Hnow & Hruns & _ & id' & Ht' & Hu').
  { by rewrite Hc. }
  { by rewrite Hc, Hn. }
  { exact Hu. }
  { by rewrite Hc, Hn. }
  fold burst in Hnow, Hruns, Ht', Hu'. rewrite Hn in Hnow.
  rewrite Hc, Hnow in Ht'. fold due in Ht'.
  destruct (advance_single_exact T burst id' due Ht') as [Hfire Hleft].
  rewrite Hfire, Hleft, Hruns, Hr. split; [done|]. split; [done|].
  split; intros Hd.
  - by rewrite decide_True.
  - by rewrite decide_False by lia.
Qed.

Lemma debounce_fires_after_quiet_period_witness :
  let w := worldOn netFlaky in
  let evs := [(1100, AddFact (Str "fact2")); (1300, RemoveFact (Str "fact2"))] in
  let burst := runBurst evs (applyMutation (AddFact (Str "fact1")) w) in
  timersOwned w ∧
  1 ≤ default 0 (debounceTime (config w)) ≤ 2147483647 ∧
  spaced (default 0 (debounceTime (config w))) (now w) evs ∧
  timerRuns (advance 1799 burst) = 0%nat ∧
  timerRuns (advance 1800 burst) = 1%nat.
Proof.
  intros w evs burst.
  assert (Hown : timersOwned w) by constructor.
  assert (Hrange : 1 ≤ default 0 (debounceTime (config w)) ≤ 2147483647).
  { simpl. lia. }
  assert (Hsp : spaced (default 0 (debounceTime (config w))) (now w) evs).
  { simpl. lia. }
  split; [exact Hown|]. split; [exact Hrange|]. split; [exact Hsp|]. split.
  - destruct (debounce_fires_after_quiet_period w (AddFact (Str "fact1")) evs
                1799 Hown Hrange Hsp) as (_ & Hruns & _).
    exact Hruns.
  - destruct (debounce_fires_after_quiet_period w (AddFact (Str "fact1")) evs
                1800 Hown Hrange Hsp) as (_ & Hruns & _).
    exact Hruns.
Defined.

Lemma fire_timers_shrink (x : positive * Z) (w : World) :
  (length (timers (fire x w)) ≤ length (timers w))%nat.
Proof.
  unfold fire. case_bool_decide; [|done].
  destruct (timerCallback_env
              (set_now (Z.max (now w) x.2) (clearTimeout x.1 w))) as (Ht & _).
  rewrite Ht. cbn [timers set_now clearTimeout set_timers].
  apply length_filter.
Qed.

Lemma perform_pending_at_most_one (a : Action) (w : World) :
  timersOwned w → (length (timers w) ≤ 1)%nat →
  (length (timers (perform a w)) ≤ 1)%nat.
Proof.
  intros Hown Hlen. destruct a; cbn [perform]; try done.
  - destruct (applyMutation_arms m w Hown) as (Ht & _). by rewrite Ht.
  - destruct (determineState_updateState w Hown)
      as (w0 & -> & _ & _ & _ & _ & _ & _ & Ht & _).
    destruct (updateState_env w0) as (Ht' & _). rewrite Ht', Ht. simpl. lia.
  - unfold advance. cbn [timers set_now].
    generalize (filter (λ x, x.2 ≤ t) (timers w)). intros due.
    revert w Hown Hlen. induction due as [|x due IH]; intros w Hown Hlen;
      [done|].
    cbn [foldl]. apply IH; [by apply timersOwned_fire|].
    pose proof (fire_timers_shrink x w). lia.
Qed.

(** X12. Through every run of an instance, whatever the mutations, the
    determinations, the resets and the time waited, at most one timeout is
    pending, and it is the one the instance remembers in [updateTimer]. *)
Theorem pending_timeout_at_most_one (cfg : StateBotConfig) (t : Z)
    (n : nat → Client.Attempt) (l : nat → Z) (w0 : World) (acts : list Action) :
  constructor cfg t n l = inr w0 →
  (length (timers (run acts w0)) ≤ 1)%nat ∧
  ∀ x, x ∈ timers (run acts w0) → updateTimer (run acts w0) = Some x.1.
Proof.
  intros Hc.
  assert (H0 : timersOwned w0 ∧ (length (timers w0) ≤ 1)%nat).
  { destruct (constructor_inr cfg t n l w0 Hc) as (_ & _ & _ & Ht & _).
    unfold timersOwned. rewrite Ht. split; [constructor|simpl; lia]. }
  clear Hc.
  assert (Hrun : timersOwned (run acts w0) ∧
                 (length (timers (run acts w0)) ≤ 1)%nat).
  { unfold run. revert w0 H0.
    induction acts as [|a acts IH]; intros w0 [Hown Hlen]; [done|].
    cbn [foldl]. apply IH. split.
    - by apply timersOwned_perform.
    - by apply perform_pending_at_most_one. }
  destruct Hrun as [Hown Hlen]. split; [exact Hlen|].
  by apply Forall_forall.
Qed.

Lemma pending_timeout_at_most_one_witness :
  constructor exampleConfig 1000 netFlaky noLatency = inr (worldOn netFlaky) ∧
  (length (timers (run [Mutate (AddFact (Str "a")); Wait 1200;
                        Mutate (AddFact (Str "b")); DetermineState;
                        Mutate (RemoveFact (Str "a"))]
                       (worldOn netFlaky))) ≤ 1)%nat.
Proof.
  split; [reflexivity|].
  apply (pending_timeout_at_most_one exampleConfig 1000 netFlaky noLatency
           (worldOn netFlaky) _ eq_refl).
Defined.

(** ** The record through a run *)

Lemma updateState_steps (w : World) :
  rtc Step (snapshot (heap w) (value w))
           (snapshot (heap (updateState w).2) (value (updateState w).2)).
Proof.
  pose proof (updateState_Cycle w) as HC.
  destruct (updateState w) as [res w1]. cbn [snd].
  inversion HC as [Hf|e Hf He Hv|r Hf Hcall|msg Hf Hcall]; subst res w1;
    unfold getState in *.
  - done.
  - rewrite snapshot_updateStateStore. by apply rtc_once, StepDetermined.
  - rewrite snapshot_updateStateStore. cbn [now heap value set_cache].
    match goal with
    | |- context [callService ?fs w] =>
        destruct (callService_frame fs w) as (Hh & Hv & _)
    end.
    rewrite Hh, Hv. by apply rtc_once, StepDetermined.
  - rewrite snapshot_withError.
    match goal with
    | |- context [callService ?fs w] =>
        destruct (callService_frame fs w) as (Hh & Hv & _)
    end.
    rewrite Hh, Hv. apply rtc_once, StepError.
Qed.

Lemma timerCallback_steps (w : World) :
  rtc Step (snapshot (heap w) (value w))
           (snapshot (heap (timerCallback w)) (value (timerCallback w))).
Proof.
  unfold timerCallback. pose proof (updateState_steps w) as Hu.
  destruct (updateState w) as [[msg|st] w1]; cbn [snd] in Hu;
    rewrite snapshot_set_timerRuns; [|done].
  rewrite snapshot_withError. etrans; [exact Hu|]. apply rtc_once, StepError.
Qed.

Lemma advance_steps (t : Z) (w : World) :
  rtc Step (snapshot (heap w) (value w))
           (snapshot (heap (advance t w)) (value (advance t w))).
Proof.
  unfold advance. generalize (filter (λ x, x.2 ≤ t) (timers w)). intros due.
  cbn [heap value set_now].
  revert w. induction due as [|x due IH]; intros w; [done|].
  cbn [foldl]. etrans; [|apply IH].
  unfold fire. case_bool_decide; [|done].
  apply (timerCallback_steps (set_now _ (clearTimeout _ w))).
Qed.

(** The actions that keep the history change the record by steps. *)
Lemma perform_steps (a : Action) (w : World) :
  keepsHistory a = true →
  rtc Step (snapshot (heap w) (value w))
           (snapshot (heap (perform a w)) (value (perform a w))).
Proof.
  intros Ha. destruct a; try discriminate Ha; cbn [perform]; try done.
  - rewrite snapshot_applyMutation. apply rtc_once, StepFacts.
  - rewrite snapshot_clearFacts.
    etrans; [apply rtc_once, (StepFacts [])|apply rtc_once, StepCleared].
  - unfold determineState. destruct (updateTimer w) as [id|].
    + apply (updateState_steps (set_updateTimer None (clearTimeout id w))).
    + apply updateState_steps.
  - apply advance_steps.
Qed.

Lemma Step_wellFormedHistory (s s' : Snapshot) :
  Step s s' → wellFormedHistory s → wellFormedHistory s'.
Proof.
  intros Hstep (Htr & Hprev & Hcur & Hconf).
  destruct Hstep as [l s|s|st conf t s|msg s]; unfold wellFormedHistory;
    cbn [setFacts cleared setError determined s_transitions s_previousState
         s_currentState s_confidence]; try done.
  destruct (decide (s_currentState s = Some st)) as [Hsame|Hchanged].
  - repeat split; try done; intros c [= <-]; by apply Hcur.
  - split.
    { apply Forall_app. split; [done|]. by repeat constructor. }
    rewrite last_snoc. cbn [mbind option_bind fmap option_fmap option_map
                             tr_from tr_to].
    repeat split; try done; by intros c [= <-].
Qed.

Lemma wellFormedHistory_initial (t : Z) : wellFormedHistory (initialState t).
Proof. unfold wellFormedHistory, initialState. simpl. by repeat split. Qed.

Lemma perform_wellFormedHistory (a : Action) (w : World) :
  ownAction a = true →
  wellFormedHistory (snapshot (heap w) (value w)) →
  wellFormedHistory (snapshot (heap (perform a w)) (value (perform a w))).
Proof.
  intros Ha Hw.
  assert (Hcases : perform a w = reset w ∨ keepsHistory a = true)
    by (destruct a; try discriminate Ha; (by left) || (by right)).
  destruct Hcases as [->|Hk].
  - rewrite snapshot_reset. apply wellFormedHistory_initial.
  - pose proof (perform_steps a w Hk) as Hsteps.
    induction Hsteps as [|s1 s2 s3 H12 _ IH]; [done|].
    apply IH. by apply (Step_wellFormedHistory s1).
Qed.

Lemma happen_wellFormedHistory (e : Event) (w : World) :
  ownEvent e = true →
  wellFormedHistory (snapshot (heap w) (value w)) →
  wellFormedHistory (snapshot (heap (happen e w)) (value (happen e w))).
Proof.
  intros He Hw. destruct e as [a|cacheKey response|msg]; cbn [happen].
  - by apply perform_wellFormedHistory.
  - rewrite snapshot_updateStateStore.
    apply (Step_wellFormedHistory (snapshot (heap w) (value w))); [|exact Hw].
    apply StepDetermined.
  - rewrite snapshot_withError.
    apply (Step_wellFormedHistory (snapshot (heap w) (value w))); [|exact Hw].
    apply StepError.
Qed.



Lemma Step_prefix (s s' : Snapshot) :
  Step s s' → s_transitions s `prefix_of` s_transitions s'.
Proof.
  intros [l s0|s0|st conf t s0|msg s0];
    cbn [setFacts cleared setError determined s_transitions]; try done.
  case_decide; [done|]. by apply prefix_app_r.
Qed.

(** X14. The history is append-only: through a run without [reset()], and
    in which no caller writes to the object it got from [getState()], the
    transitions recorded at any moment are a prefix of those recorded later;
    [reset()] is the one operation that drops them. *)
Theorem transitions_append_only (w : World) (acts : list Action) :
  Forall (λ a, keepsHistory a = true) acts →
  s_transitions (snapshot (heap w) (getState w))
  `prefix_of`
  s_transitions (snapshot (heap (run acts w)) (getState (run acts w))) ∧
  s_transitions (snapshot (heap (reset (run acts w))) (getState (reset (run acts w))))
  = [].
Proof.
  intros Hacts. unfold getState. split; [|by rewrite snapshot_reset].
  unfold run. revert w.
  induction Hacts as [|a acts Ha _ IH]; intros w; [done|].
  cbn [foldl]. etrans; [|apply IH].
  pose proof (perform_steps a w Ha) as Hsteps.
  induction Hsteps as [|s1 s2 s3 H12 _ IH2]; [done|].
  etrans; [by apply Step_prefix|exact IH2].
Qed.

Lemma transitions_append_only_witness :
  let w := advance 1500 (addFact (Str "fact1") (worldOn netFlaky)) in
  let acts := [ClearFacts; Mutate (AddFact (Str "fact2")); DetermineState] in
  Forall (λ a, keepsHistory a = true) acts ∧
  length (s_transitions (snapshot (heap w) (getState w))) = 1%nat ∧
  s_transitions (snapshot (heap w) (getState w))
  `prefix_of`
  s_transitions (snapshot (heap (run acts w)) (getState (run acts w))).
Proof.
  intros w acts.
  assert (Hacts : Forall (λ a, keepsHistory a = true) acts)
    by (by repeat constructor).
  split; [exact Hacts|]. split; [by vm_compute|].
  destruct (transitions_append_only w acts Hacts) as [Hprefix _].
  exact Hprefix.
Defined.

(** ** Subscribers *)

Lemma told_refl (w : World) : toldSubscribers w w.
Proof. split; [done|]. split; [done|]. exists []. by rewrite app_nil_r. Qed.

Lemma told_same (w w' : World) :
  subscribers w' = subscribers w → nextSubscription w' = nextSubscription w →
  delivered w' = delivered w →
  toldSubscribers w w'.
Proof.
  intros Hs Hn Hd. split; [done|]. split; [done|].
  exists []. by rewrite app_nil_r.
Qed.

Lemma told_trans (w1 w2 w3 : World) :
  toldSubscribers w1 w2 → toldSubscribers w2 w3 → toldSubscribers w1 w3.
Proof.
  intros (Hs1 & Hn1 & t1 & Hd1 & Ht1) (Hs2 & Hn2 & t2 & Hd2 & Ht2).
  split; [by rewrite Hs2|]. split; [by rewrite Hn2|]. exists (t1 ++ t2).
  split; [by rewrite Hd2, Hd1, app_assoc|].
  apply Forall_app. split; [done|]. unfold callbacks in *. by rewrite <- Hs1.
Qed.

Lemma deliveries_callbacks (w : World) (s : Snapshot) :
  Forall (λ d, d.1 ∈ callbacks w) (deliveries (subscribers w) s).
Proof.
  unfold deliveries, callbacks. apply Forall_fmap, Forall_forall.
  intros sub Hsub. cbn [fst]. apply list_elem_of_fmap. by exists sub.
Qed.

Lemma told_store_update fn (w : World) : toldSubscribers w (store_update fn w).
Proof.
  split; [done|]. split; [done|].
  exists (deliveries (subscribers w)
            (snapshot (heap (store_update fn w)) (value (store_update fn w)))).
  split; [done|]. apply deliveries_callbacks.
Qed.

Lemma told_callService (fs : list string) (w : World) :
  toldSubscribers w (callService fs w).2.
Proof. unfold callService. destruct (llmService w); by apply told_same. Qed.

Lemma told_updateState (w : World) : toldSubscribers w (updateState w).2.
Proof.
  pose proof (updateState_Cycle w) as HC.
  destruct (updateState w) as [res w1]. cbn [snd].
  inversion HC as [Hf|e Hf He Hv|r Hf Hcall|msg Hf Hcall]; subst res w1.
  - apply told_refl.
  - apply told_store_update.
  - eapply told_trans; [|apply told_store_update].
    match goal with
    | |- context [callService ?fs w] =>
        apply (told_trans w (callService fs w).2); [apply told_callService|]
    end.
    by apply told_same.
  - eapply told_trans; [|apply told_store_update]. apply told_callService.
Qed.

Lemma told_timerCallback (w : World) : toldSubscribers w (timerCallback w).
Proof.
  unfold timerCallback. pose proof (told_updateState w) as Hu.
  destruct (updateState w) as [[msg|st] w1]; cbn [snd] in Hu.
  - eapply told_trans; [exact Hu|].
    eapply told_trans; [apply (told_store_update (withError msg))|].
    by apply told_same.
  - eapply told_trans; [exact Hu|]. by apply told_same.
Qed.

Lemma told_advance (t : Z) (w : World) : toldSubscribers w (advance t w).
Proof.
  unfold advance. generalize (filter (λ x, x.2 ≤ t) (timers w)). intros due.
  apply (told_trans w (foldl (λ v x, fire x v) w due)); [|by apply told_same].
  revert w. induction due as [|x due IH]; intros w; [apply told_refl|].
  cbn [foldl]. apply (told_trans w (fire x w)); [|apply IH].
  unfold fire. case_bool_decide; [|apply told_refl].
  apply (told_trans w (set_now (Z.max (now w) x.2) (clearTimeout x.1 w)));
    [by apply told_same|apply told_timerCallback].
Qed.

(** Whatever the instance does, it tells the callbacks subscribed to it,
    and no other. *)
Lemma told_perform (a : Action) (w : World) :
  (∀ cb, a ≠ Subscribe cb) → (∀ sub, a ≠ Unsubscribe sub) →
  toldSubscribers w (perform a w).
Proof.
  intros Hsub Hunsub. destruct a as [cb|sub| | | | | | | ]; cbn [perform].
  - by destruct (Hsub cb).
  - by destruct (Hunsub sub).
  - by apply told_same.
  - destruct m; unfold applyMutation, addFact, addFacts, removeFact;
      (eapply told_trans; [apply told_store_update|]);
      unfold scheduleStateUpdate;
      change (updateTimer (store_update ?f w)) with (updateTimer w);
      destruct (updateTimer w); apply told_same; reflexivity.
  - unfold clearFacts.
    eapply told_trans; [apply (told_store_update (withFacts []))|].
    apply told_store_update.
  - unfold determineState. destruct (updateTimer w) as [id|].
    + eapply told_trans;
        [|apply (told_updateState (set_updateTimer None (clearTimeout id w)))].
      by apply told_same.
    + apply told_updateState.
  - split; [done|]. split; [done|].
    exists (deliveries (subscribers w)
              (snapshot (heap (reset w)) (value (reset w)))).
    split; [done|]. apply deliveries_callbacks.
  - apply told_advance.
  - by apply told_same.
Qed.

Lemma received_told (cb : nat) (w w' : World) :
  toldSubscribers w w' → cb ∉ callbacks w →
  received cb w' = received cb w ∧ cb ∉ callbacks w'.
Proof.
  intros (Hs & _ & told & Hd & Ht) Hcb.
  split; [|by unfold callbacks; rewrite Hs].
  unfold received. rewrite Hd, filter_app, fmap_app. clear Hd.
  replace (filter (λ d, d.1 = cb) told) with (@nil (nat * Snapshot));
    [by rewrite app_nil_r|].
  symmetry. induction Ht as [|d told Hd' _ IH]; [done|].
  rewrite filter_cons_False; [exact IH|]. by intros <-.
Qed.

Lemma received_perform (cb : nat) (a : Action) (w : World) :
  subscribes cb a = false → cb ∉ callbacks w →
  received cb (perform a w) = received cb w ∧ cb ∉ callbacks (perform a w).
Proof.
  intros Ha Hcb.
  destruct a as [cb'|sub| | | | | | | ];
    try (apply received_told; [by apply told_perform|done]).
  - cbn [subscribes] in Ha. apply bool_decide_eq_false in Ha.
    cbn [perform]. unfold received, subscribe, callbacks.
    cbn [delivered subscribers set_delivered set_subscribers
         set_nextSubscription].
    rewrite filter_app, filter_cons_False by done.
    rewrite filter_nil, app_nil_r. split; [done|].
    rewrite fmap_app, elem_of_app. cbn [fmap list_fmap snd].
    rewrite list_elem_of_singleton. by intros [?|?].
  - cbn [perform]. unfold received, unsubscribe, callbacks.
    cbn [delivered subscribers set_subscribers]. split; [done|].
    intros (s & Hs & Hin)%list_elem_of_fmap.
    apply list_elem_of_filter in Hin as [_ Hin].
    apply Hcb. apply list_elem_of_fmap. by exists s.
Qed.

Lemma subscriptionsDistinct_same (w w' : World) :
  subscribers w' = subscribers w → nextSubscription w' = nextSubscription w →
  subscriptionsDistinct w → subscriptionsDistinct w'.
Proof. unfold subscriptionsDistinct. by intros -> ->. Qed.

Lemma subscriptionsDistinct_perform (a : Action) (w : World) :
  subscriptionsDistinct w → subscriptionsDistinct (perform a w).
Proof.
  intros Hw.
  destruct a as [cb|sub| | | | | | | ];
    try (match goal with
         | |- subscriptionsDistinct (perform ?a w) =>
             destruct (told_perform a w) as (Hs & Hn & _); [done..|];
             by apply (subscriptionsDistinct_same w)
         end).
  - destruct Hw as [Hnodup Hold]. cbn [perform]. unfold subscribe.
    split; cbn [subscribers nextSubscription set_delivered set_subscribers
                set_nextSubscription].
    + rewrite fmap_app. cbn [fmap list_fmap fst]. apply NoDup_app.
      split; [done|]. split; [|apply NoDup_singleton].
      intros h (s & -> & Hs)%list_elem_of_fmap Hh.
      apply list_elem_of_singleton in Hh.
      rewrite Forall_forall in Hold. specialize (Hold s Hs). lia.
    + apply Forall_app. split.
      * eapply Forall_impl; [exact Hold|]. intros s Hs. simpl in *. lia.
      * repeat constructor.
  - destruct Hw as [Hnodup Hold]. cbn [perform]. unfold unsubscribe.
    split; cbn [subscribers nextSubscription set_subscribers].
    + clear Hold. induction (subscribers w) as [|s subs IH]; [constructor|].
      rewrite fmap_cons in Hnodup. apply NoDup_cons in Hnodup as [Hs Hnodup].
      destruct (decide (s.1 ≠ sub)) as [Hne|He].
      * rewrite filter_cons_True by done. rewrite fmap_cons.
        apply NoDup_cons. split; [|by apply IH].
        intros (s' & Hs' & Hin)%list_elem_of_fmap.
        apply list_elem_of_filter in Hin as [_ Hin].
        apply Hs. apply list_elem_of_fmap. by exists s'.
      * rewrite filter_cons_False by done. by apply IH.
    + apply Forall_forall. intros s [_ Hs]%list_elem_of_filter.
      revert s Hs. by apply Forall_forall.
Qed.

Lemma received_happen (cb : nat) (e : Event) (w : World) :
  subscribesEvent cb e = false → cb ∉ callbacks w →
  received cb (happen e w) = received cb w ∧ cb ∉ callbacks (happen e w).
Proof.
  intros He Hcb. destruct e as [a|cacheKey response|msg]; cbn [happen].
  - by apply received_perform.
  - apply received_told; [|done].
    eapply told_trans; [|apply told_store_update]. by apply told_same.
  - apply received_told; [|done]. apply told_store_update.
Qed.

(** X15. The function that [subscribe] returned deletes the subscription it
    was returned for, and no other.  When the callback has no other
    subscription it is not called again: through every run that does not
    subscribe it anew, whatever else happens (mutations, determinations,
    timeouts, resets, cycles that go on after their call of the service has
    returned), what it has received stays what it had received.  The other
    subscriptions stay, those of the same callback included: their callbacks
    are called at the next update of the store.  Calling the function a
    second time changes nothing.  Through every run of an instance the
    subscriptions the writable holds are distinct. *)
Theorem unsubscribe_stops_deliveries (sub cb : nat) (w : World)
    (acts : list Action) (evs : list Event) :
  Forall (λ a, subscribes cb a = false) acts →
  Forall (λ e, subscribesEvent cb e = false) evs →
  (∀ s, s ∈ subscribers w → s.2 = cb → s.1 = sub) →
  let w' := run acts (unsubscribe sub w) in
  let w'' := happenAll evs (unsubscribe sub w) in
  received cb w' = received cb w ∧
  (cb ∉ callbacks w') ∧
  received cb w'' = received cb w ∧
  (cb ∉ callbacks w'') ∧
  (∀ s fn, s ∈ subscribers w → s.1 ≠ sub →
     let w1 := store_update fn (unsubscribe sub w) in
     s ∈ subscribers (unsubscribe sub w) ∧
     (s.2, snapshot (heap w1) (value w1)) ∈ delivered w1) ∧
  unsubscribe sub (unsubscribe sub w) = unsubscribe sub w ∧
  (∀ cfg t n l w0 acts0,
     constructor cfg t n l = inr w0 → subscriptionsDistinct (run acts0 w0)).
Proof.
  intros Hacts Hevs Honly w' w''. subst w' w''.
  assert (H0 : received cb (unsubscribe sub w) = received cb w ∧
               cb ∉ callbacks (unsubscribe sub w)).
  { split; [done|]. unfold unsubscribe, callbacks.
    cbn [subscribers set_subscribers].
    intros (s & Hs & Hin)%list_elem_of_fmap.
    apply list_elem_of_filter in Hin as [Hne Hin].
    apply Hne. by apply Honly. }
  assert (Hrun : ∀ v, cb ∉ callbacks v →
            received cb (run acts v) = received cb v ∧
            cb ∉ callbacks (run acts v)).
  { unfold run. clear H0 Honly.
    induction Hacts as [|a acts Ha _ IH]; intros v Hcb; [done|].
    cbn [foldl]. destruct (received_perform cb a v Ha Hcb) as [<- Hcb'].
    by apply IH. }
  assert (Hall : ∀ v, cb ∉ callbacks v →
            received cb (happenAll evs v) = received cb v ∧
            cb ∉ callbacks (happenAll evs v)).
  { unfold happenAll. clear H0 Honly Hrun.
    induction Hevs as [|e evs He _ IH]; intros v Hcb; [done|].
    cbn [foldl]. destruct (received_happen cb e v He Hcb) as [<- Hcb'].
    by apply IH. }
  destruct H0 as [<- Hcb].
  destruct (Hrun _ Hcb) as [Hsame Hout].
  destruct (Hall _ Hcb) as [Hsame' Hout'].
  split; [exact Hsame|]. split; [exact Hout|].
  split; [exact Hsame'|]. split; [exact Hout'|]. split; [|split].
  - intros s fn Hin Hne.
    assert (Hstays : s ∈ subscribers (unsubscribe sub w)).
    { unfold unsubscribe. cbn [subscribers set_subscribers].
      by apply list_elem_of_filter. }
    cbv zeta. split; [exact Hstays|].
    destruct (delivered_store_update fn (unsubscribe sub w)) as [Hd _].
    rewrite Hd. apply elem_of_app. right. unfold deliveries.
    apply list_elem_of_fmap. by exists s.
  - unfold unsubscribe. cbn [subscribers set_subscribers].
    by rewrite list_filter_filter, (list_filter_iff _ (λ s, s.1 ≠ sub))
      by (intros s; tauto).
  - intros cfg t n l w0 acts0 Hc.
    assert (H0 : subscriptionsDistinct w0).
    { unfold constructor in Hc.
      destruct (createLLMService (defaultedConfig cfg)); [done|].
      injection Hc as <-. split; constructor. }
    clear Hc. unfold run. revert w0 H0.
    induction acts0 as [|a acts0 IH]; intros w0 H0; [done|].
    cbn [foldl]. by apply IH, subscriptionsDistinct_perform.
Qed.

Lemma unsubscribe_stops_deliveries_witness :
  let acts := [Mutate (AddFact (Str "fact1")); Wait 2000; ClearFacts; Reset] in
  let evs := [Act (Mutate (AddFact (Str "fact1"))); Failed "fetch failed"] in
  Forall (λ a, subscribes 1 a = false) acts ∧
  Forall (λ e, subscribesEvent 1 e = false) evs ∧
  (∀ s, s ∈ subscribers worldX → s.2 = 1%nat → s.1 = 0%nat) ∧
  received 1%nat (run acts (unsubscribe 0 worldX)) = received 1%nat worldX ∧
  length (received 1%nat worldX) = 1%nat.
Proof.
  intros acts evs.
  assert (Hacts : Forall (λ a, subscribes 1 a = false) acts)
    by (by repeat constructor).
  assert (Hevs : Forall (λ e, subscribesEvent 1 e = false) evs)
    by (by repeat constructor).
  assert (Honly : ∀ s, s ∈ subscribers worldX → s.2 = 1%nat → s.1 = 0%nat).
  { intros s Hs _. vm_compute in Hs. apply list_elem_of_singleton in Hs.
    by subst s. }
  split; [exact Hacts|]. split; [exact Hevs|]. split; [exact Honly|].
  destruct (unsubscribe_stops_deliveries 0 1 worldX acts evs Hacts Hevs Honly)
    as [Hsame _].
  split; [exact Hsame|by vm_compute].
Defined.

(** A callback subscribed twice is still called, once for each update,
    after the function returned for its first subscription was called. *)
Example unsubscribe_leaves_the_other_subscription :
  let w := subscribe 1 worldX in
  let w' := addFact (Str "f3") (unsubscribe 0 w) in
  subscribers w = [(0%nat, 1%nat); (1%nat, 1%nat)] ∧
  subscribers w' = [(1%nat, 1%nat)] ∧
  length (received 1%nat w') = S (length (received 1%nat w)).
Proof. vm_compute. by repeat split. Qed.

(** ** The cache through a run *)

Lemma cache_updateState (w : World) :
  dom (cache w) ⊆ dom (cache (updateState w).2).
Proof.
  pose proof (updateState_Cycle w) as HC.
  destruct (updateState w) as [res w1]. cbn [snd].
  inversion HC as [Hf|e Hf He Hv|r Hf Hcall|msg Hf Hcall]; subst res w1.
  - done.
  - done.
  - change (cache (updateStateStore ?a ?b (set_cache ?c ?v))) with c.
    rewrite dom_insert_L. set_solver.
  - change (cache (store_update ?f ?v)) with (cache v).
    match goal with
    | |- context [callService ?fs w] =>
        destruct (callService_frame fs w) as (_ & _ & _ & Hc & _)
    end.
    by rewrite Hc.
Qed.

Lemma cache_perform (a : Action) (w : World) :
  isReset a = false → dom (cache w) ⊆ dom (cache (perform a w)).
Proof.
  intros Ha. destruct a; try discriminate Ha; cbn [perform]; try done.
  - destruct m; unfold applyMutation, addFact, addFacts, removeFact,
      scheduleStateUpdate;
      change (updateTimer (store_update ?f w)) with (updateTimer w);
      by destruct (updateTimer w).
  - unfold determineState. destruct (updateTimer w) as [id|].
    + apply (cache_updateState (set_updateTimer None (clearTimeout id w))).
    + apply cache_updateState.
  - unfold advance. cbn [cache set_now].
    generalize (filter (λ x, x.2 ≤ t) (timers w)). intros due.
    revert w. induction due as [|x due IH]; intros w; [done|].
    cbn [foldl]. etrans; [|apply IH].
    unfold fire. case_bool_decide; [|done]. unfold timerCallback.
    pose proof (cache_updateState
                  (set_now (Z.max (now w) x.2) (clearTimeout x.1 w))) as Hu.
    destruct (updateState _) as [[msg|st] w1]; exact Hu.
Qed.

(** X16. The cache has no eviction: through every run without [reset()]
    the keys it holds are kept, expired or not, and [reset()] is the one
    operation that removes them, all at once. *)
Theorem cache_keys_are_kept (w : World) (acts : list Action) :
  Forall (λ a, isReset a = false) acts →
  dom (cache w) ⊆ dom (cache (run acts w)) ∧
  cache (reset (run acts w)) = ∅.
Proof.
  intros Hacts. split; [|done]. unfold run. revert w.
  induction Hacts as [|a acts Ha _ IH]; intros w; [done|].
  cbn [foldl]. etrans; [by apply cache_perform|apply IH].
Qed.

Lemma cache_keys_are_kept_witness :
  let w := advance 1500 (addFact (Str "fact1") (worldOn netFlaky)) in
  let acts := [Wait 400000; Mutate (AddFact (Str "fact2")); DetermineState;
               ClearFacts] in
  Forall (λ a, isReset a = false) acts ∧
  is_Some (cache w !! "fact1") ∧
  "fact1" ∈ dom (cache (run acts w)).
Proof.
  intros w acts.
  assert (Hacts : Forall (λ a, isReset a = false) acts)
    by (by repeat constructor).
  assert (Hin : is_Some (cache w !! "fact1")) by (vm_compute; by eexists).
  split; [exact Hacts|]. split; [exact Hin|].
  destruct (cache_keys_are_kept w acts Hacts) as [Hkept _].
  apply Hkept. by apply elem_of_dom.
Defined.

(** ** The HTTP handlers *)

(** A cycle does not touch the list of facts. *)
Lemma updateState_facts (w : World) :
  s_facts (snapshot (heap (updateState w).2) (value (updateState w).2))
  = s_facts (snapshot (heap w) (value w)).
Proof.
  pose proof (updateState_Cycle w) as HC.
  destruct (updateState w) as [res w1]. cbn [snd].
  inversion HC as [Hf|e Hf He Hv|r Hf Hcall|msg Hf Hcall]; subst res w1;
    unfold getState in *.
  - done.
  - by rewrite snapshot_updateStateStore.
  - rewrite snapshot_updateStateStore. cbn [now heap value set_cache determined
      s_facts].
    match goal with
    | |- context [callService ?fs w] =>
        destruct (callService_frame fs w) as (Hh & Hv & _)
    end.
    by rewrite Hh, Hv.
  - rewrite snapshot_withError. cbn [setError s_facts].
    match goal with
    | |- context [callService ?fs w] =>
        destruct (callService_frame fs w) as (Hh & Hv & _)
    end.
    by rewrite Hh, Hv.
Qed.

Lemma typed_ElemFact (fs : list FactArg) :
  firstNull (ElemFact <$> fs) = None ∧ typed (ElemFact <$> fs) = Some fs.
Proof.
  induction fs as [|f fs [IH1 IH2]]; [done|].
  rewrite fmap_cons. cbn [firstNull typed]. by rewrite IH1, IH2.
Qed.



(** ** The cache key and the delimiter *)

Lemma merge_sort_Sorted_id (l : list string) :
  Sorted String.le l → merge_sort String.le l = l.
Proof.
  intros Hs. apply (Sorted_unique String.le); [|done|].
  - apply (Sorted_merge_sort String.le).
  - apply merge_sort_Permutation.
Qed.

(** X18. Facts are not escaped in the key: the list made of the one fact
    whose text is the key of [fs] has the same key as [fs], so that any list
    of two facts or more shares its cache entry with a different list. *)
Theorem generateCacheKey_collides_on_delimiter (fs : list string) :
  (2 ≤ length fs)%nat →
  generateCacheKey [generateCacheKey fs] = generateCacheKey fs ∧
  ¬ ([generateCacheKey fs] ≡ₚ fs) ∧
  (∀ c : gmap string CacheEntry,
     c !! generateCacheKey [generateCacheKey fs] = c !! generateCacheKey fs).
Proof.
  intros Hlen.
  assert (Hk : generateCacheKey [generateCacheKey fs] = generateCacheKey fs).
  { unfold generateCacheKey at 1.
    by rewrite merge_sort_Sorted_id by repeat constructor. }
  split; [exact Hk|]. split; [|by intros c; rewrite Hk].
  intros Hp. apply Permutation_length in Hp. simpl in Hp. lia.
Qed.

Lemma generateCacheKey_collides_on_delimiter_witness :
  (2 ≤ length ["b"; "a"])%nat ∧
  generateCacheKey ["a|b"] = generateCacheKey ["b"; "a"].
Proof.
  split; [simpl; lia|].
  destruct (generateCacheKey_collides_on_delimiter ["b"; "a"]) as [Hk _].
  - simpl. lia.
  - exact Hk.
Defined.

Lemma bar_is_the_delimiter : String bar "" = "|".
Proof. reflexivity. Qed.

Lemma contains_app (c : Ascii.ascii) (s1 s2 : string) :
  contains c (s1 +:+ s2) = contains c s1 || contains c s2.
Proof.
  induction s1 as [|a s1 IH]; [done|].
  change (String a s1 +:+ s2) with (String a (s1 +:+ s2)).
  cbn [contains]. case_decide; [done|exact IH].
Qed.

(** A fact without the delimiter ends at the first delimiter of the key. *)
Lemma split_at_delimiter (x y r1 r2 : string) :
  contains bar x = false → contains bar y = false →
  x +:+ "|" +:+ r1 = y +:+ "|" +:+ r2 → x = y ∧ r1 = r2.
Proof.
  revert y. induction x as [|a x IH]; intros [|b y] Hx Hy Heq.
  - change ("" +:+ "|" +:+ ?r) with (String bar r) in Heq.
    by injection Heq.
  - change ("" +:+ "|" +:+ ?r) with (String bar r) in Heq.
    change (String b y +:+ ?r) with (String b (y +:+ r)) in Heq.
    injection Heq as <- _. cbn [contains] in Hy.
    by rewrite decide_True in Hy.
  - change ("" +:+ "|" +:+ ?r) with (String bar r) in Heq.
    change (String a x +:+ ?r) with (String a (x +:+ r)) in Heq.
    injection Heq as -> _. cbn [contains] in Hx.
    by rewrite decide_True in Hx.
  - change (String a x +:+ ?r) with (String a (x +:+ r)) in Heq.
    change (String b y +:+ ?r) with (String b (y +:+ r)) in Heq.
    injection Heq as -> Heq. cbn [contains] in Hx, Hy.
    case_decide; [done|].
    by destruct (IH y Hx Hy Heq) as [-> ->].
Qed.

Lemma concat_cons_cons (x y : string) (l : list string) :
  String.concat "|" (x :: y :: l) = x +:+ "|" +:+ String.concat "|" (y :: l).
Proof. reflexivity. Qed.

(** Joining is injective on non-empty lists of facts without the
    delimiter. *)
Lemma concat_delimiter_inj (l1 : list string) :
  ∀ l2, l1 ≠ [] → l2 ≠ [] →
    Forall (λ f, contains bar f = false) l1 →
    Forall (λ f, contains bar f = false) l2 →
    String.concat "|" l1 = String.concat "|" l2 → l1 = l2.
Proof.
  induction l1 as [|x [|x' l1] IH]; intros [|y [|y' l2]] H1 H2 Hf1 Hf2 Heq;
    try done.
  - by simplify_eq/=.
  - exfalso. rewrite concat_cons_cons in Heq. cbn [String.concat] in Heq.
    apply Forall_cons in Hf1 as [Hx _]. rewrite Heq in Hx.
    rewrite !contains_app in Hx. cbn [contains] in Hx.
    rewrite decide_True in Hx by done. by destruct (contains bar y).
  - exfalso. rewrite concat_cons_cons in Heq. cbn [String.concat] in Heq.
    apply Forall_cons in Hf2 as [Hy _]. rewrite <- Heq in Hy.
    rewrite !contains_app in Hy. cbn [contains] in Hy.
    rewrite decide_True in Hy by done. by destruct (contains bar x).
  - rewrite !concat_cons_cons in Heq.
    apply Forall_cons in Hf1 as [Hx Hf1]. apply Forall_cons in Hf2 as [Hy Hf2].
    destruct (split_at_delimiter x y _ _ Hx Hy Heq) as [-> Hrest].
    f_equal. by apply IH.
Qed.

(** X19. On non-empty lists of facts none of which holds the delimiter '|',
    the key tells the lists apart up to order: two such lists have the same
    key if and only if they are permutations of each other. *)
Theorem generateCacheKey_injective_without_delimiter (fs1 fs2 : list string) :
  fs1 ≠ [] → fs2 ≠ [] →
  Forall (λ f, contains bar f = false) fs1 →
  Forall (λ f, contains bar f = false) fs2 →
  generateCacheKey fs1 = generateCacheKey fs2 ↔ fs1 ≡ₚ fs2.
Proof.
  intros H1 H2 Hf1 Hf2. split.
  - intros Hk. unfold generateCacheKey in Hk.
    apply concat_delimiter_inj in Hk.
    + by rewrite <- (merge_sort_Permutation String.le fs1), Hk,
        merge_sort_Permutation.
    + intros Hnil. apply H1, Permutation_nil_r.
      by rewrite <- Hnil, merge_sort_Permutation.
    + intros Hnil. apply H2, Permutation_nil_r.
      by rewrite <- Hnil, merge_sort_Permutation.
    + by rewrite merge_sort_Permutation.
    + by rewrite merge_sort_Permutation.
  - intros Hp. unfold generateCacheKey. f_equal.
    by apply merge_sort_permutation_invariant.
Qed.

Lemma generateCacheKey_injective_without_delimiter_witness :
  generateCacheKey ["b"; "a"; "a"] = generateCacheKey ["a"; "b"; "a"]
  ↔ ["b"; "a"; "a"] ≡ₚ ["a"; "b"; "a"].
Proof.
  apply generateCacheKey_injective_without_delimiter; try done;
    by repeat constructor.
Defined.

(** ** The store over a flaky network *)



(** ** What edits leave alone *)

Lemma perform_edit (a : Action) (w : World) :
  isEdit a = true →
  let s := snapshot (heap w) (value w) in
  let s' := snapshot (heap (perform a w)) (value (perform a w)) in
  s_error s' = s_error s ∧ s_lastUpdated s' = s_lastUpdated s ∧
  s_previousState s' = s_previousState s ∧
  s_transitions s' = s_transitions s ∧
  llmCalls (perform a w) = llmCalls w ∧ fetches (perform a w) = fetches w ∧
  cache (perform a w) = cache w.
Proof.
  intros Ha s s'. subst s s'.
  destruct a; try discriminate Ha; cbn [perform]; try done.
  - rewrite snapshot_applyMutation.
    destruct m; unfold applyMutation, addFact, addFacts, removeFact,
      scheduleStateUpdate;
      change (updateTimer (store_update ?f w)) with (updateTimer w);
      by destruct (updateTimer w).
  - by rewrite snapshot_clearFacts.
Qed.

(** X21. Editing determines nothing: through every run of fact mutations,
    [clearFacts()], subscriptions and replacements of the service, with no
    time passing, [error], [lastUpdated], [previousState] and the
    transitions stay as they were (a recorded error outlives the facts it
    came from), the cache is untouched and neither the service nor [fetch]
    is called. *)
Theorem edits_determine_nothing (w : World) (acts : list Action) :
  Forall (λ a, isEdit a = true) acts →
  let s := snapshot (heap w) (getState w) in
  let w' := run acts w in
  let s' := snapshot (heap w') (getState w') in
  s_error s' = s_error s ∧ s_lastUpdated s' = s_lastUpdated s ∧
  s_previousState s' = s_previousState s ∧
  s_transitions s' = s_transitions s ∧
  llmCalls w' = llmCalls w ∧ fetches w' = fetches w ∧ cache w' = cache w.
Proof.
  intros Hacts s w' s'. subst s w' s'. unfold getState, run. revert w.
  induction Hacts as [|a acts Ha _ IH]; intros w; [done|].
  cbn [foldl].
  destruct (perform_edit a w Ha) as (He & Hl & Hp & Ht & Hc & Hf & Hk).
  destruct (IH (perform a w)) as (He' & Hl' & Hp' & Ht' & Hc' & Hf' & Hk').
  rewrite He', Hl', Hp', Ht', Hc', Hf', Hk'. by repeat split.
Qed.

Lemma edits_determine_nothing_witness :
  let w := (determineState (addFact (Str "fact1") (worldOn netDown))).2 in
  let acts := [Mutate (RemoveFact (Str "fact1")); ClearFacts;
               Mutate (AddFacts [Str "a"; Str "b"])] in
  Forall (λ a, isEdit a = true) acts ∧
  s_error (snapshot (heap w) (getState w)) = Some "fetch failed" ∧
  s_error (snapshot (heap (run acts w)) (getState (run acts w)))
  = s_error (snapshot (heap w) (getState w)).
Proof.
  intros w acts.
  assert (Hacts : Forall (λ a, isEdit a = true) acts)
    by (by repeat constructor).
  split; [exact Hacts|]. split; [by vm_compute|].
  destruct (edits_determine_nothing w acts Hacts) as [Herr _].
  exact Herr.
Defined.
